(** * query/debug.go: the sortedness validator and the subgraph dumper

    A shallow embedding of [DebugSubgraph], [AssertSorted] and
    [AssertUidListSorted] (package [query]) over an explicit model of the Go
    runtime they touch: a store of [SubGraph] objects addressed by pointers,
    standard output, and the ways a call can stop (return, run-time panic,
    fatal assertion). *)

From Stdlib Require Import NArith DecimalString Ascii String Lia.
From stdpp Require Import base option list gmap strings.

Local Open Scope string_scope.

(** ** Values *)

(** Node identifiers are [uint64]; the code only compares them, so they are
    kept as binary naturals. *)
Abbreviation uint64 := N (only parsing).

(** [protos.List]: the message holding one identifier list. *)
Record List : Type := mkList { Uids : list uint64 }.

(** Addresses of [SubGraph] objects; a [*SubGraph] is [option loc], [None]
    being [nil].  A [*protos.List] is [option List]: the lists are never
    written, so the pointee stands for the pointer. *)
Abbreviation loc := nat (only parsing).

(** The fields of [SubGraph] that the file reads. *)
Record SubGraph : Type := mkSubGraph {
  Attr : string;
  SrcUIDs : option List;
  DestUIDs : option List;
  Children : list (option loc)
}.

(** Modelled from the spec: the generated accessor [GetUids] of [protos.List]
    (package [protos] is outside the sources).  It is the nil-safe getter:
    the identifier sequence of the list, and the empty sequence for [nil]. *)
Definition GetUids (m : option List) : list uint64 :=
  match m with
  | Some l => Uids l
  | None => []
  end.

(** ** Formatting verbs of [fmt] *)

Definition nl : string := String "010"%char EmptyString.
Definition dquote : string := String "034"%char EmptyString.
Definition bslash : string := String "092"%char EmptyString.

(** [%d] on a non-negative [int]. *)
Definition fmt_d (i : nat) : string := NilZero.string_of_uint (Nat.to_uint i).

(** [%v] on one [uint64]. *)
Definition fmt_uint64 (x : uint64) : string := NilZero.string_of_uint (N.to_uint x).

Fixpoint join_sp (ss : list string) : string :=
  match ss with
  | [] => EmptyString
  | [s] => s
  | s :: rest => s +:+ " " +:+ join_sp rest
  end.

(** [%v] on a [[]uint64]: the elements in decimal, separated by one space,
    between square brackets. *)
Definition fmt_v (l : list uint64) : string :=
  "[" +:+ join_sp (fmt_uint64 <$> l) +:+ "]".

Definition hex_digit (n : nat) : string :=
  String (nth n (list_ascii_of_string "0123456789abcdef") "0"%char) EmptyString.

(** One byte of [strconv.Quote], for bytes below 0x80. *)
Definition quote_byte (c : ascii) : string :=
  let n := nat_of_ascii c in
  if decide (n = 34) then bslash +:+ dquote
  else if decide (n = 92) then bslash +:+ bslash
  else if decide (32 ≤ n ∧ n < 127)%nat then String c EmptyString
  else if decide (n = 7) then bslash +:+ "a"
  else if decide (n = 8) then bslash +:+ "b"
  else if decide (n = 12) then bslash +:+ "f"
  else if decide (n = 10) then bslash +:+ "n"
  else if decide (n = 13) then bslash +:+ "r"
  else if decide (n = 9) then bslash +:+ "t"
  else if decide (n = 11) then bslash +:+ "v"
  else bslash +:+ "x" +:+ hex_digit (n / 16) +:+ hex_digit (n mod 16).

Fixpoint quote_bytes (s : string) : string :=
  match s with
  | EmptyString => EmptyString
  | String c rest => quote_byte c +:+ quote_bytes rest
  end.

(** [%q] on a string of ASCII bytes ([strconv.Quote]); the development is
    parametric in the verb, this instance serves the worked examples. *)
Definition quote_ascii (s : string) : string := dquote +:+ quote_bytes s +:+ dquote.

(** Modelled from the spec: the [%v] rendering of a [*protos.List] (the type
    and its printing method are declared in package [protos], outside the
    sources).  The full identifier sequence is rendered, not truncated, as in
    [SrcUids=[1 5 9]]. *)
Definition List_String (pl : option List) : string := fmt_v (GetUids pl).

(** ** The run-time model *)

(** Run-time panics the code can raise. *)
Inductive fault : Type :=
  | NilDereference     (* invalid memory address or nil pointer dereference *)
  | IndexOutOfRange.

(** Ways a call stops without returning. *)
Inductive abort : Type :=
  | Panic (f : fault)
  | Fatal (msg : string)   (* the process is halted by a failed assertion *)
  | OutOfFuel.             (* the call depth allowed to the model is exhausted *)

Inductive outcome (A : Type) : Type :=
  | Ret (a : A)
  | Abort (r : abort).
Arguments Ret {A} a.
Arguments Abort {A} r.

(** Operations recorded for counting: entering a function body on a pointer,
    and one evaluation of [<] on two identifiers.  The record is bookkeeping
    of the model: the program neither writes nor reads it. *)
Inductive event : Type :=
  | Call (sg : option loc)
  | Less (a b : uint64).

Record world : Type := mkWorld {
  heap : gmap loc SubGraph;     (* the SubGraph objects *)
  stdout : list string;         (* the writes of fmt.Printf, oldest first *)
  trace : list event            (* the recorded operations, oldest first *)
}.

Definition M (A : Type) : Type := world → outcome A * world.

#[global] Instance M_ret : MRet M := λ A a w, (Ret a, w).

#[global] Instance M_bind : MBind M := λ A B f m w,
  match m w with
  | (Ret a, w') => f a w'
  | (Abort r, w') => (Abort r, w')
  end.

Definition stop {A} (r : abort) : M A := λ w, (Abort r, w).

(** [p.f] on a [*SubGraph]: reads the object [p] points to. *)
Definition load (p : option loc) : M SubGraph := λ w,
  match p with
  | None => (Abort (Panic NilDereference), w)
  | Some l =>
      match heap w !! l with
      | Some n => (Ret n, w)
      | None => (Abort (Panic NilDereference), w)
      end
  end.

(** [pl.Uids] on a [*protos.List]. *)
Definition deref {A} (p : option A) : M A :=
  match p with
  | Some a => mret a
  | None => stop (Panic NilDereference)
  end.

(** [s[i]] with its bounds check. *)
Definition index {A} (s : list A) (i : nat) : M A :=
  match s !! i with
  | Some x => mret x
  | None => stop (Panic IndexOutOfRange)
  end.

(** [fmt.Printf] of an already formatted line. *)
Definition Printf (s : string) : M unit := λ w,
  (Ret tt, mkWorld (heap w) (stdout w ++ [s]) (trace w)).

(** Appends one operation to the record. *)
Definition tick (e : event) : M unit := λ w,
  (Ret tt, mkWorld (heap w) (stdout w) (trace w ++ [e])).

(** [*p = n], an assignment through a [*SubGraph].  No statement of the file
    is one: it is defined to tell the computations that write the store from
    those that only read it. *)
Definition store (l : loc) (n : SubGraph) : M unit := λ w,
  (Ret tt, mkWorld (<[l := n]> (heap w)) (stdout w) (trace w)).

(** Modelled from the spec: [x.AssertTruef] (package [x] is outside the
    sources).  A true condition returns; a false one is a fatal contract
    violation that halts the process with the formatted message. *)
Definition AssertTruef (b : bool) (msg : string) : M unit :=
  if b then mret tt else stop (Fatal msg).

(** [for _, x := range xs { body x }]. *)
Fixpoint for_each {A} (xs : list A) (body : A → M unit) : M unit :=
  match xs with
  | [] => mret tt
  | x :: rest => body x;; for_each rest body
  end.

(** [for i := i0; cond i; i++ { body i }], with [k] bounding the number of
    iterations. *)
Fixpoint for_loop (k : nat) (cond : nat → bool) (body : nat → M unit) (i : nat) : M unit :=
  if cond i then
    match k with
    | 0 => stop OutOfFuel
    | S k' => body i;; for_loop k' cond body (S i)
    end
  else mret tt.

(** ** The program

    The three functions of [query/debug.go], statement by statement.  Each
    [sg.f] is a [load], each [pl.Uids] a [deref], each [s[i]] an [index]; the
    [tick]s record the entry into a body and each comparison.  [fuel] bounds
    the depth of nested calls. *)

Definition AssertUidListSorted (pl : option List) (msg : string) : M unit :=
  for_loop (length (GetUids pl))
    (λ i, bool_decide (i + 1 < length (GetUids pl))%nat)
    (λ i,
      l ← deref pl; a ← index (Uids l) i;
      l' ← deref pl; b ← index (Uids l') (i + 1)%nat;
      tick (Less a b);;
      AssertTruef (a <? b)%N (msg +:+ " list not sorted: " +:+ fmt_v (GetUids pl)))
    0.

Fixpoint AssertSorted (fuel : nat) (sg : option loc) : M unit :=
  match fuel with
  | 0 => stop OutOfFuel
  | S fuel' =>
      tick (Call sg);;
      match sg with
      | None => mret tt
      | Some _ =>
          n ← load sg; AssertUidListSorted (SrcUIDs n) "src uid";;
          n ← load sg; AssertUidListSorted (DestUIDs n) "dest uid";;
          n ← load sg; for_each (Children n) (AssertSorted fuel')
      end
  end.

Section Dumper.

(** The [%q] verb on a string and the [%v] verb on a [*protos.List]. *)
Variable fmt_q : string → string.
Variable fmt_v_List : option List → string.

Fixpoint DebugSubgraph (fuel : nat) (sg : option loc) (indent : string) : M unit :=
  match fuel with
  | 0 => stop OutOfFuel
  | S fuel' =>
      tick (Call sg);;
      n ← load sg; Printf (indent +:+ "Attr=" +:+ fmt_q (Attr n) +:+ nl);;
      n ← load sg; Printf (indent +:+ "  SrcUids=" +:+ fmt_v_List (SrcUIDs n) +:+ nl);;
      n ← load sg;
      for_each (seq 0 (length (Children n))) (λ i,
        Printf (indent +:+ "  Child=" +:+ fmt_d i +:+ nl);;
        n ← load sg; ch ← index (Children n) i;
        DebugSubgraph fuel' ch (indent +:+ "    "))
  end.

End Dumper.

(** ** Reading a run *)

(** The world after a call that wrote the lines [o] and recorded [t]. *)
Definition emit (w : world) (o : list string) (t : list event) : world :=
  mkWorld (heap w) (stdout w ++ o) (trace w ++ t).

(** The nodes on which a function body was entered, in order. *)
Definition visited (t : list event) : list loc :=
  omap (λ e, match e with Call p => p | Less _ _ => None end) t.

(** The identifier comparisons performed, in order. *)
Definition comparisons (t : list event) : list (uint64 * uint64) :=
  omap (λ e, match e with Less a b => Some (a, b) | Call _ => None end) t.

(** A computation that only reads the store and only appends to standard
    output and to the record: from a given store it stops the same way and
    appends the same lines and events, whatever was written before. *)
Definition local {A} (m : M A) : Prop :=
  ∀ h, ∃ r o t, ∀ out tr,
    m (mkWorld h out tr) = (r, mkWorld h (out ++ o) (tr ++ t)).

(** ** The result tree, as the specification sees it *)

Definition sourceIds (n : SubGraph) : list uint64 := GetUids (SrcUIDs n).
Definition destIds (n : SubGraph) : list uint64 := GetUids (DestUIDs n).

(** Invariants 1 and 2: for all adjacent pairs, earlier < later. *)
Definition strictly_increasing (l : list uint64) : Prop :=
  ∀ i a b, l !! i = Some a → l !! S i = Some b → (a < b)%N.

(** An adjacent pair with earlier >= later. *)
Definition violating_pair (l : list uint64) : Prop :=
  ∃ i a b, l !! i = Some a ∧ l !! S i = Some b ∧ (b ≤ a)%N.

Fixpoint sortedb (l : list uint64) : bool :=
  match l with
  | a :: (b :: _) as rest => (a <? b)%N && sortedb rest
  | _ => true
  end.

(** Index of the first adjacent pair that is not increasing, counted from
    [i] for the head of [l]. *)
Fixpoint first_violation_from (i : nat) (l : list uint64) : option nat :=
  match l with
  | a :: (b :: _) as rest =>
      if (a <? b)%N then first_violation_from (S i) rest else Some i
  | _ => None
  end.

Definition first_violation : list uint64 → option nat := first_violation_from 0.

(** The comparisons the check of one list performs: adjacent pairs from the
    left, up to and including the first that is not increasing. *)
Fixpoint compared (l : list uint64) : list event :=
  match l with
  | a :: (b :: _) as rest =>
      Less a b :: (if (a <? b)%N then compared rest else [])
  | _ => []
  end.

(** [l] is the node reached from [p] by following [k] child pointers. *)
Inductive descends (h : gmap loc SubGraph) : option loc → nat → loc → Prop :=
  | descends_here l : descends h (Some l) 0 l
  | descends_child l n c k l' :
      h !! l = Some n → c ∈ Children n → descends h c k l' →
      descends h (Some l) (S k) l'.

(** The nodes of the tree under [p]. *)
Definition reachable (h : gmap loc SubGraph) (p : option loc) (l : loc) : Prop :=
  ∃ k, descends h p k l.

(** The structure under [p] is finite: every chain of child pointers ends,
    in a leaf or in [nil], within [d] nested calls. *)
Fixpoint finite (h : gmap loc SubGraph) (d : nat) (p : option loc) : bool :=
  match d with
  | 0 => false
  | S d' =>
      match p with
      | None => true
      | Some l =>
          match h !! l with
          | Some n => forallb (finite h d') (Children n)
          | None => false
          end
      end
  end.

(** A finite result tree in the sense of the data model: [p] and every
    child below it is a node. *)
Fixpoint complete (h : gmap loc SubGraph) (d : nat) (p : option loc) : bool :=
  match d with
  | 0 => false
  | S d' =>
      match p with
      | None => false
      | Some l =>
          match h !! l with
          | Some n => forallb (complete h d') (Children n)
          | None => false
          end
      end
  end.

(** Depth-first pre-order of the nodes under [p], children in stored
    order. *)
Fixpoint preorder (h : gmap loc SubGraph) (d : nat) (p : option loc) : list loc :=
  match d, p with
  | S d', Some l =>
      l :: match h !! l with
           | Some n => concat (preorder h d' <$> Children n)
           | None => []
           end
  | _, _ => []
  end.

(** No node sits at two places of the structure. *)
Definition unshared (h : gmap loc SubGraph) (d : nat) (p : option loc) : Prop :=
  NoDup (preorder h d p).

(** The number of times the body of a function was entered on node [l]. *)
Definition visits (t : list event) (l : loc) : nat :=
  count_occ Nat.eq_dec (visited t) l.

(** The message of a failed check of the list [l] labelled [tag]. *)
Definition not_sorted_msg (tag : string) (l : list uint64) : string :=
  tag +:+ " list not sorted: " +:+ fmt_v l.

(** The first violation of the tree under [p], in pre-order, source list
    before destination list at each node. *)
Definition node_violation (n : SubGraph) : option string :=
  if sortedb (sourceIds n) then
    if sortedb (destIds n) then None
    else Some (not_sorted_msg "dest uid" (destIds n))
  else Some (not_sorted_msg "src uid" (sourceIds n)).

Fixpoint first_some {A} (xs : list (option A)) : option A :=
  match xs with
  | [] => None
  | Some a :: _ => Some a
  | None :: rest => first_some rest
  end.

Fixpoint tree_violation (h : gmap loc SubGraph) (d : nat) (p : option loc) : option string :=
  match d with
  | 0 => None
  | S d' =>
      match p with
      | None => None
      | Some l =>
          match h !! l with
          | Some n =>
              match node_violation n with
              | Some m => Some m
              | None => first_some (tree_violation h d' <$> Children n)
              end
          | None => None
          end
      end
  end.

(** How the validator stops on a tree whose first violation is [v]. *)
Definition verdict (v : option string) : outcome unit :=
  match v with
  | None => Ret tt
  | Some m => Abort (Fatal m)
  end.

(** [sub] occurs in [s]. *)
Fixpoint occurs (sub s : string) : bool :=
  String.prefix sub s ||
  match s with
  | EmptyString => false
  | String _ rest => occurs sub rest
  end.

Section DumpSpec.

Variable fmt_q : string → string.
Variable fmt_v_List : option List → string.

(** The lines of section 4.2: the label line, the source identifier line,
    then per child, in order, its index line and its own lines four spaces
    deeper. *)
Fixpoint dump_lines (h : gmap loc SubGraph) (d : nat) (p : option loc) (indent : string) : list string :=
  match d, p with
  | S d', Some l =>
      match h !! l with
      | Some n =>
          (indent +:+ "Attr=" +:+ fmt_q (Attr n) +:+ nl) ::
          (indent +:+ "  SrcUids=" +:+ fmt_v_List (SrcUIDs n) +:+ nl) ::
          concat (imap (λ i c,
            (indent +:+ "  Child=" +:+ fmt_d i +:+ nl) ::
            dump_lines h d' c (indent +:+ "    ")) (Children n))
      | None => []
      end
  | _, _ => []
  end.

(** The lines of the children [cs], the first of which has index [i]. *)
Definition child_lines (h : gmap loc SubGraph) (d : nat) (indent : string) (i : nat)
    (cs : list (option loc)) : list string :=
  concat (imap (λ j c,
    (indent +:+ "  Child=" +:+ fmt_d (i + j) +:+ nl) ::
    dump_lines h d c (indent +:+ "    ")) cs).

End DumpSpec.

(** What is left of a node when its [DestUIDs] is put aside. *)
Definition but_dest (n : SubGraph) : string * option List * list (option loc) :=
  (Attr n, SrcUIDs n, Children n).

(** Two stores that are identical except in the [DestUIDs] of their nodes. *)
Definition same_but_dest (h1 h2 : gmap loc SubGraph) : Prop :=
  ∀ l, but_dest <$> h1 !! l = but_dest <$> h2 !! l.

(** Two stores that hold the same tree under [p]. *)
Definition same_tree (h1 h2 : gmap loc SubGraph) (p : option loc) : Prop :=
  ∀ l, reachable h1 p l → h1 !! l = h2 !! l.

(** Two results that stop the same way, with values related by [R]. *)
Definition outcome_rel {A} (R : A → A → Prop) (r1 r2 : outcome A) : Prop :=
  match r1, r2 with
  | Ret a1, Ret a2 => R a1 a2
  | Abort x1, Abort x2 => x1 = x2
  | _, _ => False
  end.

(** [m1] from the store [h1] and [m2] from the store [h2] write the same
    lines, record the same events and stop the same way. *)
Definition sim {A} (R : A → A → Prop) (h1 h2 : gmap loc SubGraph) (m1 m2 : M A) : Prop :=
  ∃ r1 r2 o t,
    (∀ out tr, m1 (mkWorld h1 out tr) = (r1, mkWorld h1 (out ++ o) (tr ++ t))) ∧
    (∀ out tr, m2 (mkWorld h2 out tr) = (r2, mkWorld h2 (out ++ o) (tr ++ t))) ∧
    outcome_rel R r1 r2.

(** [n] spaces. *)
Fixpoint spaces (n : nat) : string :=
  match n with
  | 0 => EmptyString
  | S n' => " " +:+ spaces n'
  end.

(** ** Worked inputs *)

Definition uids (l : list uint64) : option List := Some (mkList l).

(** The example scenario: a forum with one thread. *)
Definition forum : SubGraph := mkSubGraph "forum" (uids [1; 5; 9]%N) None [Some 1].
Definition thread : SubGraph := mkSubGraph "thread" (uids [2; 4]%N) (uids [10; 11]%N) [].
Definition forum_heap : gmap loc SubGraph := <[0 := forum]> (<[1 := thread]> ∅).

(** The example violation: the thread's destination list is [11 10]. *)
Definition thread_bad : SubGraph := mkSubGraph "thread" (uids [2; 4]%N) (uids [11; 10]%N) [].
Definition bad_heap : gmap loc SubGraph := <[0 := forum]> (<[1 := thread_bad]> ∅).

(** A root whose own source list is [3 2], above a sorted child. *)
Definition root_bad : SubGraph := mkSubGraph "root" (uids [3; 2]%N) (uids [7]%N) [Some 1].
Definition halt_heap : gmap loc SubGraph := <[0 := root_bad]> (<[1 := thread]> ∅).

Definition start (h : gmap loc SubGraph) : world := mkWorld h [] [].

(** ** Further notions *)

(** No pointer of the store dangles: every non-nil child is an object of the
    store, as in any Go heap. *)
Definition closed (h : gmap loc SubGraph) : Prop :=
  ∀ l n c, h !! l = Some n → Some c ∈ Children n → is_Some (h !! c).

(** A computation that writes nothing to standard output: from a given
    store it stops the same way and records the same events. *)
Definition quiet {A} (m : M A) : Prop :=
  ∀ h, ∃ r t, ∀ out tr, m (mkWorld h out tr) = (r, mkWorld h out (tr ++ t)).

(** [m2] does what [m1] does, each line it writes being the line of [m1]
    put through [f]. *)
Definition relined {A} (f : string → string) (m1 m2 : M A) : Prop :=
  ∀ h, ∃ r o t,
    (∀ out tr, m1 (mkWorld h out tr) = (r, mkWorld h (out ++ o) (tr ++ t))) ∧
    (∀ out tr, m2 (mkWorld h out tr) = (r, mkWorld h (out ++ (f <$> o)) (tr ++ t))).

(** What is left of a node when its label is put aside. *)
Definition but_attr (n : SubGraph) : option List * option List * list (option loc) :=
  (SrcUIDs n, DestUIDs n, Children n).

(** The adjacent pairs of a list, from the left. *)
Definition adjacent (l : list uint64) : list (uint64 * uint64) := zip l (drop 1 l).

(** The number of comparisons after which the check of [l] stops. *)
Definition comparisons_needed (l : list uint64) : nat :=
  match first_violation l with
  | Some i => S i
  | None => length l - 1
  end.


(** A node whose second child is absent, between two present ones. *)
Definition gap_root : SubGraph :=
  mkSubGraph "gap" (uids [1; 2]%N) None [Some 1; None; Some 1].
Definition gap_heap : gmap loc SubGraph := <[0 := gap_root]> (<[1 := thread]> ∅).

(** A tree whose root has a present child followed by an absent one. *)
Definition half_root : SubGraph :=
  mkSubGraph "half" (uids [1; 2]%N) None [Some 1; None].
Definition half_heap : gmap loc SubGraph := <[0 := half_root]> (<[1 := thread]> ∅).

(** A node that is its own first child. *)
Definition loop_root : SubGraph := mkSubGraph "loop" (uids [1; 2]%N) None [Some 0; Some 1].
Definition loop_heap : gmap loc SubGraph := <[0 := loop_root]> (<[1 := thread]> ∅).

(** The forum tree with other labels. *)
Definition forum_renamed : gmap loc SubGraph :=
  <[0 := mkSubGraph "board" (uids [1; 5; 9]%N) None [Some 1]]>
    (<[1 := mkSubGraph EmptyString (uids [2; 4]%N) (uids [10; 11]%N) []]> ∅).

(** * Properties *)

Local Open Scope list_scope.
Local Open Scope nat_scope.

(** ** The monad *)

Lemma world_eta w : mkWorld (heap w) (stdout w) (trace w) = w.
Proof. by destruct w. Qed.

Lemma emit_nil w : emit w [] [] = w.
Proof. destruct w. unfold emit. simpl. by rewrite !app_nil_r. Qed.

Lemma emit_emit w o t o' t' : emit (emit w o t) o' t' = emit w (o ++ o') (t ++ t').
Proof. unfold emit. simpl. by rewrite !app_assoc. Qed.

Lemma bind_run {A B} (m : M A) (f : A → M B) w :
  (m ≫= f) w =
  match m w with
  | (Ret a, w') => f a w'
  | (Abort r, w') => (Abort r, w')
  end.
Proof. done. Qed.

Lemma bind_ret {A B} (m : M A) (f : A → M B) w a w' :
  m w = (Ret a, w') → (m ≫= f) w = f a w'.
Proof. intros E. by rewrite bind_run, E. Qed.

Lemma bind_abort {A B} (m : M A) (f : A → M B) w r w' :
  m w = (Abort r, w') → (m ≫= f) w = (Abort r, w').
Proof. intros E. by rewrite bind_run, E. Qed.

Lemma Printf_run s w : Printf s w = (Ret tt, emit w [s] []).
Proof. unfold Printf, emit. by rewrite app_nil_r. Qed.

Lemma tick_run e w : tick e w = (Ret tt, emit w [] [e]).
Proof. unfold tick, emit. by rewrite app_nil_r. Qed.

Lemma load_some l n w : heap w !! l = Some n → load (Some l) w = (Ret n, w).
Proof. intros E. unfold load. by rewrite E. Qed.

Lemma index_some {A} (s : list A) i x w : s !! i = Some x → index s i w = (Ret x, w).
Proof. intros E. unfold index. by rewrite E. Qed.

Lemma ret_run {A} (a : A) w : @mret M _ A a w = (Ret a, w).
Proof. done. Qed.

Lemma deref_some {A} (a : A) w : deref (Some a) w = (Ret a, w).
Proof. done. Qed.

Lemma AssertTruef_true msg w : AssertTruef true msg w = (Ret tt, w).
Proof. done. Qed.

Lemma AssertTruef_false msg w : AssertTruef false msg w = (Abort (Fatal msg), w).
Proof. done. Qed.

Lemma for_each_nil {A} (body : A → M unit) : for_each [] body = mret tt.
Proof. done. Qed.

Lemma for_each_cons {A} (x : A) xs body :
  for_each (x :: xs) body = (body x;; for_each xs body).
Proof. done. Qed.

Lemma for_loop_S k cond body i :
  for_loop (S k) cond body i =
  if cond i then body i;; for_loop k cond body (S i) else mret tt.
Proof. done. Qed.

Lemma for_loop_0 cond body i :
  for_loop 0 cond body i = if cond i then stop OutOfFuel else mret tt.
Proof. done. Qed.

(** One step of a run whose first action returns. *)
Ltac solve_run :=
  lazymatch goal with
  | |- tick _ _ = _ => apply tick_run
  | |- Printf _ _ = _ => apply Printf_run
  | |- load _ _ = _ => apply load_some; eassumption
  | |- index _ _ _ = _ => apply index_some; eassumption
  | |- deref _ _ = _ => apply deref_some
  | |- AssertTruef _ _ _ = _ => apply AssertTruef_true
  | |- mret _ _ = _ => apply ret_run
  end.

Ltac run_ret := erewrite bind_ret by solve_run.

(** ** Locality *)

Lemma local_run {A} (m : M A) w :
  local m → ∃ r o t, m w = (r, emit w o t).
Proof.
  intros L. destruct (L (heap w)) as (r & o & t & E).
  exists r, o, t. rewrite <- (world_eta w) at 1. apply E.
Qed.

Lemma local_ret {A} (a : A) : local (mret a).
Proof. intros h. exists (Ret a), [], []. intros. unfold mret, M_ret. by rewrite !app_nil_r. Qed.

Lemma local_stop {A} r : local (@stop A r).
Proof. intros h. exists (Abort r), [], []. intros. unfold stop. by rewrite !app_nil_r. Qed.

Lemma local_bind {A B} (m : M A) (f : A → M B) :
  local m → (∀ a, local (f a)) → local (m ≫= f).
Proof.
  intros Lm Lf h. destruct (Lm h) as (r & o & t & E). destruct r as [a|r].
  - destruct (Lf a h) as (r' & o' & t' & E').
    exists r', (o ++ o'), (t ++ t'). intros out tr.
    rewrite (bind_ret _ _ _ _ _ (E out tr)), E'. by rewrite !app_assoc.
  - exists (Abort r), o, t. intros out tr.
    by rewrite (bind_abort _ _ _ _ _ (E out tr)).
Qed.

Lemma local_load p : local (load p).
Proof.
  intros h. destruct p as [l|].
  - destruct (h !! l) as [n|] eqn:E.
    + exists (Ret n), [], []. intros. unfold load. simpl. rewrite E.
      by rewrite !app_nil_r.
    + exists (Abort (Panic NilDereference)), [], []. intros. unfold load. simpl.
      rewrite E. by rewrite !app_nil_r.
  - exists (Abort (Panic NilDereference)), [], []. intros. unfold load.
    by rewrite !app_nil_r.
Qed.

Lemma local_deref {A} (p : option A) : local (deref p).
Proof. destruct p; [apply local_ret | apply local_stop]. Qed.

Lemma local_index {A} (s : list A) i : local (index s i).
Proof. unfold index. destruct (s !! i); [apply local_ret | apply local_stop]. Qed.

Lemma local_Printf s : local (Printf s).
Proof. intros h. exists (Ret tt), [s], []. intros. unfold Printf. simpl. by rewrite app_nil_r. Qed.

Lemma local_tick e : local (tick e).
Proof. intros h. exists (Ret tt), [], [e]. intros. unfold tick. simpl. by rewrite app_nil_r. Qed.

Lemma local_AssertTruef b msg : local (AssertTruef b msg).
Proof. destruct b; [apply local_ret | apply local_stop]. Qed.

Lemma local_for_each {A} (xs : list A) body :
  (∀ x, local (body x)) → local (for_each xs body).
Proof.
  intros Lb. induction xs as [|x xs IH]; simpl.
  - apply local_ret.
  - apply local_bind; [apply Lb | intros _; apply IH].
Qed.

Lemma local_for_loop k cond body i :
  (∀ j, local (body j)) → local (for_loop k cond body i).
Proof.
  intros Lb. revert i. induction k as [|k IH]; intros i; simpl.
  - destruct (cond i); [apply local_stop | apply local_ret].
  - destruct (cond i); [| apply local_ret].
    apply local_bind; [apply Lb | intros _; apply IH].
Qed.

Create HintDb local.

#[local] Hint Resolve local_ret local_stop local_load local_deref local_index
  local_Printf local_tick local_AssertTruef : local.

(** An assignment is not local: locality is a property of the code, not of
    the monad. *)
Lemma store_not_local l n : ¬ local (store l n).
Proof.
  intros L. destruct (L ∅) as (r & o & t & E).
  specialize (E [] []). apply (f_equal (λ p, heap p.2 !! l)) in E.
  unfold store in E. simpl in E.
  by rewrite lookup_insert_eq, lookup_empty in E.
Qed.

Lemma local_AssertUidListSorted pl msg : local (AssertUidListSorted pl msg).
Proof.
  apply local_for_loop. intros j.
  repeat (apply local_bind; [auto with local | intros ?]).
  auto with local.
Qed.

Lemma local_AssertSorted fuel sg : local (AssertSorted fuel sg).
Proof.
  revert sg. induction fuel as [|fuel IH]; intros sg; simpl; [apply local_stop|].
  apply local_bind; [auto with local | intros _].
  destruct sg as [l|]; [| apply local_ret].
  repeat (apply local_bind;
          [first [apply local_AssertUidListSorted | auto with local] | intros ?]).
  apply local_for_each. intros c. apply IH.
Qed.

Lemma local_DebugSubgraph fmt_q fmt_v_List fuel sg indent :
  local (DebugSubgraph fmt_q fmt_v_List fuel sg indent).
Proof.
  revert sg indent. induction fuel as [|fuel IH]; intros sg indent; simpl;
    [apply local_stop|].
  repeat (apply local_bind; [auto with local | intros ?]).
  apply local_for_each. intros i.
  repeat (apply local_bind; [auto with local | intros ?]).
  apply IH.
Qed.

(** ** Sorted lists *)

Lemma sortedb_increasing l : sortedb l = true ↔ strictly_increasing l.
Proof.
  induction l as [|a [|b r] IH].
  - split; [|done]. intros _ i x y E. by destruct i.
  - split; [|done]. intros _ i x y _ E. by destruct i.
  - change (sortedb (a :: b :: r)) with ((a <? b)%N && sortedb (b :: r)).
    rewrite andb_true_iff, N.ltb_lt, IH. split.
    + intros [Hab Hr] [|i] x y Hx Hy; simpl in *.
      * by simplify_eq.
      * by apply (Hr i).
    + intros H. split.
      * by apply (H 0).
      * intros i x y Hx Hy. by apply (H (S i)).
Qed.

Lemma sortedb_violating l : sortedb l = false ↔ violating_pair l.
Proof.
  induction l as [|a [|b r] IH].
  - split; [done|]. by intros ([|i] & x & y & Hx & _).
  - split; [done|]. by intros ([|i] & x & y & _ & Hy & _).
  - change (sortedb (a :: b :: r)) with ((a <? b)%N && sortedb (b :: r)).
    rewrite andb_false_iff, N.ltb_ge, IH. split.
    + intros [Hab | (i & x & y & Hx & Hy & Hle)].
      * by exists 0, a, b.
      * by exists (S i), x, y.
    + intros ([|i] & x & y & Hx & Hy & Hle); simpl in *.
      * left. by simplify_eq.
      * right. by exists i, x, y.
Qed.

Lemma violating_not_increasing l : violating_pair l ↔ ¬ strictly_increasing l.
Proof.
  rewrite <- sortedb_violating, <- sortedb_increasing.
  destruct (sortedb l); naive_solver.
Qed.

Lemma violating_length l : violating_pair l → 2 ≤ length l.
Proof.
  intros (i & a & b & _ & Hb & _). apply lookup_lt_Some in Hb. lia.
Qed.

Lemma sortedb_short l : length l ≤ 1 → sortedb l = true.
Proof. destruct l as [|a [|b r]]; simpl; intros H; [done | done | lia]. Qed.

Lemma compared_short l : length l ≤ 1 → compared l = [].
Proof. destruct l as [|a [|b r]]; simpl; intros H; [done | done | lia]. Qed.

Lemma first_violation_from_sorted i l :
  first_violation_from i l = None ↔ sortedb l = true.
Proof.
  revert i. induction l as [|a [|b r] IH]; intros i; [done | done |].
  change (sortedb (a :: b :: r)) with ((a <? b)%N && sortedb (b :: r)).
  change (first_violation_from i (a :: b :: r))
    with (if (a <? b)%N then first_violation_from (S i) (b :: r) else Some i).
  destruct (a <? b)%N; [apply IH | done].
Qed.

Lemma first_violation_from_spec k l i :
  first_violation_from k l = Some i ↔
  k ≤ i ∧
  (∃ a b, l !! (i - k) = Some a ∧ l !! S (i - k) = Some b ∧ (b ≤ a)%N) ∧
  (∀ j a b, j < i - k → l !! j = Some a → l !! S j = Some b → (a < b)%N).
Proof.
  revert k. induction l as [|a [|b r] IH]; intros k.
  - split; [done|]. by intros (_ & (x & y & Hx & _) & _).
  - split; [done|]. intros (_ & (x & y & Hx & Hy & _) & _).
    by destruct (i - k).
  - change (first_violation_from k (a :: b :: r))
      with (if (a <? b)%N then first_violation_from (S k) (b :: r) else Some k).
    destruct (a <? b)%N eqn:Hab.
    + apply N.ltb_lt in Hab. rewrite IH. split.
      * intros (Hk & (x & y & Hx & Hy & Hle) & Hbefore).
        replace (i - k) with (S (i - S k)) by lia.
        split_and!; [lia | by exists x, y |].
        intros [|j] x' y' Hj Hx' Hy'; simpl in *; [by simplify_eq|].
        apply (Hbefore j); [lia | done | done].
      * intros (Hk & (x & y & Hx & Hy & Hle) & Hbefore).
        destruct (decide (i = k)) as [->|Hne].
        { rewrite Nat.sub_diag in Hx, Hy. simpl in *. simplify_eq. lia. }
        replace (i - k) with (S (i - S k)) in * by lia.
        split_and!; [lia | by exists x, y |].
        intros j x' y' Hj Hx' Hy'. apply (Hbefore (S j)); [lia | done | done].
    + apply N.ltb_ge in Hab. split.
      * intros [= <-]. rewrite Nat.sub_diag.
        split_and!; [done | by exists a, b | intros; lia].
      * intros (Hk & _ & Hbefore).
        destruct (decide (i = k)) as [->|Hne]; [done|].
        assert (a < b)%N; [|lia].
        apply (Hbefore 0); [lia | done | done].
Qed.

(** [first_violation] is the least index of an adjacent pair with
    earlier >= later. *)
Lemma first_violation_spec l i :
  first_violation l = Some i ↔
  (∃ a b, l !! i = Some a ∧ l !! S i = Some b ∧ (b ≤ a)%N) ∧
  (∀ j a b, j < i → l !! j = Some a → l !! S j = Some b → (a < b)%N).
Proof.
  unfold first_violation. rewrite first_violation_from_spec, Nat.sub_0_r.
  split; [by intros (_ & ? & ?) | intros [? ?]; split_and!; [lia | done | done]].
Qed.

Lemma first_violation_sorted l : first_violation l = None ↔ sortedb l = true.
Proof. apply first_violation_from_sorted. Qed.

(** ** The check of one list *)

Lemma check_loop pl msg k i w :
  length (GetUids pl) ≤ k + i + 1 →
  for_loop k
    (λ i, bool_decide (i + 1 < length (GetUids pl)))
    (λ i,
      l ← deref pl; a ← index (Uids l) i;
      l' ← deref pl; b ← index (Uids l') (i + 1);
      tick (Less a b);;
      AssertTruef (a <? b)%N (msg +:+ " list not sorted: " +:+ fmt_v (GetUids pl)))
    i w
  = (if sortedb (drop i (GetUids pl)) then Ret tt
     else Abort (Fatal (not_sorted_msg msg (GetUids pl))),
     emit w [] (compared (drop i (GetUids pl)))).
Proof.
  revert i w. induction k as [|k IH]; intros i w Hk.
  - rewrite for_loop_0, bool_decide_eq_false_2 by lia.
    rewrite sortedb_short, compared_short by (rewrite length_drop; lia).
    by rewrite emit_nil.
  - rewrite for_loop_S. case_bool_decide as Hi.
    + destruct pl as [l|]; [|simpl in Hi; lia].
      change (GetUids (Some l)) with (Uids l) in *.
      destruct (lookup_lt_is_Some_2 (Uids l) i) as [a Ha]; [lia|].
      destruct (lookup_lt_is_Some_2 (Uids l) (i + 1)) as [b Hb]; [lia|].
      rewrite (drop_S _ _ _ Ha).
      replace (S i) with (i + 1) in * by lia.
      rewrite (drop_S _ _ _ Hb).
      change (sortedb (a :: b :: drop (S (i + 1)) (Uids l)))
        with ((a <? b)%N && sortedb (b :: drop (S (i + 1)) (Uids l))).
      change (compared (a :: b :: drop (S (i + 1)) (Uids l)))
        with (Less a b ::
              (if (a <? b)%N then compared (b :: drop (S (i + 1)) (Uids l)) else [])).
      rewrite <- (drop_S _ _ _ Hb).
      destruct (a <? b)%N eqn:Hlt.
      * erewrite bind_ret; cycle 1.
        { do 5 run_ret. rewrite Hlt. apply AssertTruef_true. }
        rewrite IH by lia. by rewrite emit_emit.
      * erewrite bind_abort; [done|].
        do 5 run_ret. rewrite Hlt. apply AssertTruef_false.
    + rewrite sortedb_short, compared_short by (rewrite length_drop; lia).
      by rewrite emit_nil.
Qed.

Lemma AssertUidListSorted_run pl msg w :
  AssertUidListSorted pl msg w =
  (if sortedb (GetUids pl) then Ret tt
   else Abort (Fatal (not_sorted_msg msg (GetUids pl))),
   emit w [] (compared (GetUids pl))).
Proof.
  unfold AssertUidListSorted. rewrite check_loop by lia. by rewrite drop_0.
Qed.

(** ** The structure under a pointer *)

Lemma reachable_nil h l : ¬ reachable h None l.
Proof. intros [k H]. inversion H. Qed.

Lemma reachable_here h l : reachable h (Some l) l.
Proof. exists 0. constructor. Qed.

Lemma reachable_child h l n c l' :
  h !! l = Some n → c ∈ Children n → reachable h c l' → reachable h (Some l) l'.
Proof. intros Hn Hc [k H]. exists (S k). by econstructor. Qed.

Lemma reachable_inv h l l' :
  reachable h (Some l) l' →
  l' = l ∨ ∃ n c, h !! l = Some n ∧ c ∈ Children n ∧ reachable h c l'.
Proof.
  intros [k H]. inversion H; subst; [by left|].
  right. eexists _, _. split_and!; [done | done | by eexists].
Qed.

Lemma reachable_trans h p l l' :
  reachable h p l → reachable h (Some l) l' → reachable h p l'.
Proof.
  intros [k H]. induction H as [l | l n c k l0 Hn Hc H IH]; [done|].
  intros H'. eapply reachable_child; [done | done | by apply IH].
Qed.

Lemma forallb_Forall {A} (f : A → bool) xs :
  forallb f xs = true ↔ Forall (λ x, f x = true) xs.
Proof. rewrite forallb_forall, Forall_forall. by setoid_rewrite list_elem_of_In. Qed.

Lemma finite_mono h d d' p : finite h d p = true → d ≤ d' → finite h d' p = true.
Proof.
  revert d' p. induction d as [|d IH]; intros d' p H Hle; [done|].
  destruct d' as [|d']; [lia|]. simpl in *.
  destruct p as [l|]; [|done]. destruct (h !! l) as [n|]; [|done].
  rewrite forallb_Forall in *. eapply Forall_impl; [done|].
  intros c Hc. apply IH; [done | lia].
Qed.

Lemma complete_finite h d p : complete h d p = true → finite h d p = true.
Proof.
  revert p. induction d as [|d IH]; intros p H; [done|]. simpl in *.
  destruct p as [l|]; [|done]. destruct (h !! l) as [n|]; [|done].
  rewrite forallb_Forall in *. eapply Forall_impl; [done|]. apply IH.
Qed.

Lemma finite_reachable h d p l :
  finite h d p = true → reachable h p l → finite h d (Some l) = true.
Proof.
  intros Hf [k H]. revert d Hf.
  induction H as [l | l n c k l0 Hn Hc H IH]; intros d Hf; [done|].
  destruct d as [|d]; [done|]. simpl in Hf. rewrite Hn in Hf.
  rewrite forallb_Forall, Forall_forall in Hf.
  eapply finite_mono; [apply IH, Hf, Hc | lia].
Qed.

(** ** Violations of a tree *)

Lemma node_violation_none n :
  node_violation n = None ↔
  strictly_increasing (sourceIds n) ∧ strictly_increasing (destIds n).
Proof.
  unfold node_violation. rewrite <- !sortedb_increasing.
  destruct (sortedb (sourceIds n)), (sortedb (destIds n)); split;
    first [done | by intros []].
Qed.

Lemma node_violation_some n m :
  node_violation n = Some m →
  (m = not_sorted_msg "src uid" (sourceIds n) ∧ violating_pair (sourceIds n)) ∨
  (m = not_sorted_msg "dest uid" (destIds n) ∧ violating_pair (destIds n)).
Proof.
  unfold node_violation. rewrite <- !sortedb_violating.
  destruct (sortedb (sourceIds n)), (sortedb (destIds n)); naive_solver.
Qed.

Lemma first_some_none {A} (xs : list (option A)) :
  first_some xs = None ↔ Forall (λ x, x = None) xs.
Proof.
  induction xs as [|[a|] xs IH]; simpl.
  - split; [constructor | done].
  - split; [done | by inversion 1].
  - rewrite IH. split; [by constructor | by inversion 1].
Qed.

Lemma first_some_elem {A} (xs : list (option A)) a :
  first_some xs = Some a → Some a ∈ xs.
Proof.
  induction xs as [|[b|] xs IH]; simpl; [done | | ].
  - intros [= ->]. left.
  - intros H. right. by apply IH.
Qed.

Lemma tree_violation_some h d p m :
  tree_violation h d p = Some m →
  ∃ l n, reachable h p l ∧ h !! l = Some n ∧ node_violation n = Some m.
Proof.
  revert p. induction d as [|d IH]; intros p H; [done|]. simpl in H.
  destruct p as [l|]; [|done]. destruct (h !! l) as [n|] eqn:Hn; [|done].
  destruct (node_violation n) as [m'|] eqn:Hv.
  - simplify_eq. exists l, n. split_and!; [apply reachable_here | done | done].
  - apply first_some_elem, list_elem_of_fmap in H as (c & Hc & Hin).
    symmetry in Hc. apply IH in Hc as (l' & n' & Hr & Hn' & Hv').
    exists l', n'. split_and!; [| done | done].
    by eapply reachable_child.
Qed.

Lemma tree_violation_none h d p :
  finite h d p = true →
  tree_violation h d p = None →
  ∀ l n, reachable h p l → h !! l = Some n → node_violation n = None.
Proof.
  revert p. induction d as [|d IH]; intros p Hf H l n Hr Hn; [done|].
  simpl in *. destruct p as [l0|]; [|by apply reachable_nil in Hr].
  destruct (h !! l0) as [n0|] eqn:Hn0; [|done].
  destruct (node_violation n0) as [m'|] eqn:Hv; [done|].
  apply reachable_inv in Hr as [-> | (n1 & c & Hn1 & Hc & Hr)].
  - by simplify_eq.
  - simplify_eq. rewrite forallb_Forall, Forall_forall in Hf.
    rewrite first_some_none, Forall_fmap, Forall_forall in H.
    eapply (IH c); [by apply Hf | by apply H | done | done].
Qed.

(** ** The validator on a finite structure *)

Lemma visited_app t1 t2 : visited (t1 ++ t2) = visited t1 ++ visited t2.
Proof. apply omap_app. Qed.

Lemma visited_compared l : visited (compared l) = [].
Proof.
  induction l as [|a [|b r] IH]; [done | done |].
  change (compared (a :: b :: r))
    with (Less a b :: (if (a <? b)%N then compared (b :: r) else [])).
  destruct (a <? b)%N; [apply IH | done].
Qed.

Lemma AssertSorted_S fuel sg :
  AssertSorted (S fuel) sg =
  (tick (Call sg);;
   match sg with
   | None => mret tt
   | Some _ =>
       n ← load sg; AssertUidListSorted (SrcUIDs n) "src uid";;
       n ← load sg; AssertUidListSorted (DestUIDs n) "dest uid";;
       n ← load sg; for_each (Children n) (AssertSorted fuel)
   end).
Proof. done. Qed.

Section ValidatorRun.

Variables (fuel d : nat).

Hypothesis IH : ∀ sg w,
  finite (heap w) d sg = true →
  ∃ t, AssertSorted fuel sg w = (verdict (tree_violation (heap w) d sg), emit w [] t) ∧
       visited t `prefix_of` preorder (heap w) d sg ∧
       (tree_violation (heap w) d sg = None → visited t = preorder (heap w) d sg).

Lemma AssertSorted_children cs w :
  Forall (λ c, finite (heap w) d c = true) cs →
  ∃ t, for_each cs (AssertSorted fuel) w =
         (verdict (first_some (tree_violation (heap w) d <$> cs)), emit w [] t) ∧
       visited t `prefix_of` concat (preorder (heap w) d <$> cs) ∧
       (first_some (tree_violation (heap w) d <$> cs) = None →
        visited t = concat (preorder (heap w) d <$> cs)).
Proof.
  revert w. induction cs as [|c cs IHcs]; intros w Hf.
  - exists []. by rewrite for_each_nil, ret_run, emit_nil.
  - apply Forall_cons in Hf as [Hc Hcs]. rewrite for_each_cons.
    destruct (IH c w Hc) as (t1 & E1 & P1 & C1). simpl.
    destruct (tree_violation (heap w) d c) as [m|] eqn:Hv.
    + exists t1. rewrite (bind_abort _ _ _ _ _ E1).
      split_and!; [done | by apply prefix_app_r | done].
    + rewrite (bind_ret _ _ _ _ _ E1).
      destruct (IHcs (emit w [] t1) Hcs) as (t2 & E2 & P2 & C2).
      exists (t1 ++ t2). rewrite E2, emit_emit, visited_app, (C1 eq_refl).
      split_and!; [done | by apply prefix_app | intros H; by rewrite C2].
Qed.

End ValidatorRun.

Lemma AssertSorted_run fuel d sg w :
  finite (heap w) d sg = true → d ≤ fuel →
  ∃ t, AssertSorted fuel sg w = (verdict (tree_violation (heap w) d sg), emit w [] t) ∧
       visited t `prefix_of` preorder (heap w) d sg ∧
       (tree_violation (heap w) d sg = None → visited t = preorder (heap w) d sg).
Proof.
  revert d sg w. induction fuel as [|fuel IH]; intros d sg w Hf Hd.
  { destruct d; [done | lia]. }
  destruct d as [|d]; [done|]. rewrite AssertSorted_S. run_ret.
  destruct sg as [l|]; cycle 1.
  { exists [Call None]. rewrite ret_run. split_and!; done. }
  simpl in Hf. simpl tree_violation. simpl preorder.
  destruct (heap w !! l) as [n|] eqn:Hn; [|done].
  run_ret. rewrite bind_run, AssertUidListSorted_run, emit_emit.
  unfold node_violation, sourceIds, destIds.
  destruct (sortedb (GetUids (SrcUIDs n))).
  2:{ eexists. split; [done|]. rewrite visited_app, visited_compared. simpl.
      split; [|done]. apply prefix_cons, prefix_nil. }
  run_ret. rewrite bind_run, AssertUidListSorted_run, emit_emit.
  destruct (sortedb (GetUids (DestUIDs n))).
  2:{ eexists. split; [done|]. rewrite !visited_app, !visited_compared. simpl.
      split; [|done]. apply prefix_cons, prefix_nil. }
  run_ret. rewrite forallb_Forall in Hf.
  assert (Hd' : d ≤ fuel) by lia.
  lazymatch goal with
  | |- context [for_each ?cs _ ?w'] =>
      destruct (AssertSorted_children fuel d
                  (λ sg' w'' Hf', IH d sg' w'' Hf' Hd') cs w' Hf)
        as (t & E & P & C)
  end.
  rewrite E, emit_emit. eexists. split; [done|].
  rewrite !visited_app, !visited_compared. simpl.
  split; [by apply prefix_cons | intros H; by rewrite C].
Qed.

(** ** The validator on any store *)

Lemma for_each_abort {A} (xs : list A) body w r w' :
  (∀ x, local (body x)) →
  for_each xs body w = (Abort r, w') →
  ∃ x w1 w1', x ∈ xs ∧ heap w1 = heap w ∧ body x w1 = (Abort r, w1').
Proof.
  intros Lb. revert w. induction xs as [|x xs IH]; intros w H; [done|].
  rewrite for_each_cons, bind_run in H.
  destruct (local_run (body x) w (Lb x)) as (r1 & o & t & E).
  rewrite E in H. destruct r1 as [[]|r1].
  - apply IH in H as (y & w1 & w1' & Hy & Hh & Hb).
    exists y, w1, w1'. split_and!; [by right | done | done].
  - simplify_eq. exists x, w, (emit w o t). split_and!; [left | done | done].
Qed.

Lemma AssertSorted_fatal fuel sg w m w' :
  AssertSorted fuel sg w = (Abort (Fatal m), w') →
  ∃ l n, reachable (heap w) sg l ∧ heap w !! l = Some n ∧
         node_violation n = Some m.
Proof.
  revert sg w w'. induction fuel as [|fuel IH]; intros sg w w' H; [done|].
  rewrite AssertSorted_S in H. revert H. run_ret.
  destruct sg as [l|]; [|done].
  destruct (heap w !! l) as [n|] eqn:Hn; cycle 1.
  { rewrite bind_run. unfold load. simpl. by rewrite Hn. }
  run_ret. rewrite bind_run, AssertUidListSorted_run, emit_emit.
  destruct (sortedb (GetUids (SrcUIDs n))) eqn:Hs; cycle 1.
  { intros [= <- <-]. exists l, n. split_and!; [apply reachable_here | done |].
    unfold node_violation, sourceIds. by rewrite Hs. }
  run_ret. rewrite bind_run, AssertUidListSorted_run, emit_emit.
  destruct (sortedb (GetUids (DestUIDs n))) eqn:Hd; cycle 1.
  { intros [= <- <-]. exists l, n. split_and!; [apply reachable_here | done |].
    unfold node_violation, sourceIds, destIds. by rewrite Hs, Hd. }
  run_ret. intros H.
  apply for_each_abort in H as (c & w1 & w1' & Hc & Hh & H);
    [| intros; apply local_AssertSorted].
  apply IH in H as (l' & n' & Hr & Hn' & Hv). simpl in Hh. rewrite Hh in *.
  exists l', n'. split_and!; [by eapply reachable_child | done | done].
Qed.

(** ** The dumper on a complete tree *)

Section DumperRun.

Variable fmt_q : string → string.
Variable fmt_v_List : option List → string.

Lemma DebugSubgraph_S fuel sg indent :
  DebugSubgraph fmt_q fmt_v_List (S fuel) sg indent =
  (tick (Call sg);;
   n ← load sg; Printf (indent +:+ "Attr=" +:+ fmt_q (Attr n) +:+ nl);;
   n ← load sg; Printf (indent +:+ "  SrcUids=" +:+ fmt_v_List (SrcUIDs n) +:+ nl);;
   n ← load sg;
   for_each (seq 0 (length (Children n))) (λ i,
     Printf (indent +:+ "  Child=" +:+ fmt_d i +:+ nl);;
     n ← load sg; ch ← index (Children n) i;
     DebugSubgraph fmt_q fmt_v_List fuel ch (indent +:+ "    "))).
Proof. done. Qed.

Lemma child_lines_cons h d indent i c cs :
  child_lines fmt_q fmt_v_List h d indent i (c :: cs) =
  (indent +:+ "  Child=" +:+ fmt_d i +:+ nl) ::
  dump_lines fmt_q fmt_v_List h d c (indent +:+ "    ") ++
  child_lines fmt_q fmt_v_List h d indent (S i) cs.
Proof.
  unfold child_lines. rewrite imap_cons. simpl. rewrite Nat.add_0_r.
  do 3 f_equal. apply imap_ext. intros j x _. simpl.
  by rewrite Nat.add_succ_r.
Qed.

Variables (fuel d : nat).

Hypothesis IH : ∀ sg indent w,
  complete (heap w) d sg = true →
  DebugSubgraph fmt_q fmt_v_List fuel sg indent w =
  (Ret tt, emit w (dump_lines fmt_q fmt_v_List (heap w) d sg indent)
             (Call ∘ Some <$> preorder (heap w) d sg)).

Lemma DebugSubgraph_children l n indent cs i w :
  heap w !! l = Some n →
  drop i (Children n) = cs →
  Forall (λ c, complete (heap w) d c = true) cs →
  for_each (seq i (length cs)) (λ i,
     Printf (indent +:+ "  Child=" +:+ fmt_d i +:+ nl);;
     n ← load (Some l); ch ← index (Children n) i;
     DebugSubgraph fmt_q fmt_v_List fuel ch (indent +:+ "    ")) w =
  (Ret tt, emit w (child_lines fmt_q fmt_v_List (heap w) d indent i cs)
             (Call ∘ Some <$> concat (preorder (heap w) d <$> cs))).
Proof.
  revert i w. induction cs as [|c cs IHcs]; intros i w Hn Hdrop Hf.
  - simpl. by rewrite ret_run, emit_nil.
  - apply Forall_cons in Hf as [Hc Hcs].
    assert (Children n !! i = Some c) as Hi.
    { rewrite <- (Nat.add_0_r i), <- lookup_drop. by rewrite Hdrop. }
    assert (drop (S i) (Children n) = cs) as Hdrop'.
    { replace (S i) with (i + 1) by lia. by rewrite <- drop_drop, Hdrop. }
    simpl length. simpl seq. rewrite for_each_cons.
    erewrite bind_ret; cycle 1.
    { do 3 run_ret. apply IH. exact Hc. }
    rewrite (IHcs (S i)) by done.
    rewrite !emit_emit, child_lines_cons. simpl.
    by rewrite fmap_app.
Qed.

End DumperRun.

Lemma DebugSubgraph_run fmt_q fmt_v_List fuel d sg indent w :
  complete (heap w) d sg = true → d ≤ fuel →
  DebugSubgraph fmt_q fmt_v_List fuel sg indent w =
  (Ret tt, emit w (dump_lines fmt_q fmt_v_List (heap w) d sg indent)
             (Call ∘ Some <$> preorder (heap w) d sg)).
Proof.
  revert d sg indent w. induction fuel as [|fuel IH]; intros d sg indent w Hc Hd.
  { destruct d; [done | lia]. }
  destruct d as [|d]; [done|]. simpl in Hc.
  destruct sg as [l|]; [|done].
  destruct (heap w !! l) as [n|] eqn:Hn; [|done].
  rewrite forallb_Forall in Hc.
  rewrite DebugSubgraph_S. do 5 run_ret.
  erewrite bind_ret by (apply load_some; exact Hn).
  rewrite (DebugSubgraph_children fmt_q fmt_v_List fuel d) with (n := n) (cs := Children n);
    [ | intros; apply IH; [done | lia] | done | done | done ].
  rewrite !emit_emit. simpl. by rewrite Hn.
Qed.

(** ** The nodes a pass goes through *)

Lemma elem_of_concat {A} (x : A) (ls : list (list A)) :
  x ∈ concat ls ↔ ∃ l, x ∈ l ∧ l ∈ ls.
Proof.
  rewrite list_elem_of_In, in_concat. setoid_rewrite list_elem_of_In.
  split; intros (l & H1 & H2); by exists l.
Qed.

Lemma preorder_reachable h d p l : l ∈ preorder h d p → reachable h p l.
Proof.
  revert p. induction d as [|d IH]; intros p H; [by apply elem_of_nil in H|].
  simpl in H. destruct p as [l0|]; [|by apply elem_of_nil in H].
  apply elem_of_cons in H as [-> | H]; [apply reachable_here|].
  destruct (h !! l0) as [n|] eqn:Hn; [|by apply elem_of_nil in H].
  apply elem_of_concat in H as (xs & Hl & Hxs).
  apply list_elem_of_fmap in Hxs as (c & -> & Hc).
  eapply reachable_child; [done | done | by apply IH].
Qed.

Lemma reachable_preorder h d p l :
  finite h d p = true → reachable h p l → l ∈ preorder h d p.
Proof.
  intros Hf [k H]. revert d Hf.
  induction H as [l | l n c k l' Hn Hc H IH]; intros d Hf.
  - destruct d; [done|]. left.
  - destruct d as [|d]; [done|]. simpl in *. rewrite Hn in *.
    rewrite forallb_Forall, Forall_forall in Hf. right.
    apply elem_of_concat. exists (preorder h d c). split.
    + by apply IH, Hf.
    + apply list_elem_of_fmap. by exists c.
Qed.

Lemma visits_once t l xs :
  NoDup xs → visited t = xs → l ∈ xs → visits t l = 1.
Proof.
  intros Hnd E Hl. subst xs. unfold visits.
  apply NoDup_count_occ'; [by apply NoDup_ListNoDup | by apply list_elem_of_In].
Qed.

Lemma visits_at_most_once t l xs :
  NoDup xs → visited t `prefix_of` xs → visits t l ≤ 1.
Proof.
  intros Hnd [k E]. subst xs. unfold visits.
  apply NoDup_app in Hnd as (Hnd & _ & _).
  by apply NoDup_count_occ, NoDup_ListNoDup.
Qed.

Lemma visited_calls ls : visited (Call ∘ Some <$> ls) = ls.
Proof.
  induction ls as [|l ls IH]; [done|].
  change (visited (Call ∘ Some <$> l :: ls)) with (l :: visited (Call ∘ Some <$> ls)).
  by rewrite IH.
Qed.

(** ** Runs from two stores *)

Section Sim.

Context {A : Type} (h1 h2 : gmap loc SubGraph).

Lemma sim_ret (R : A → A → Prop) a1 a2 : R a1 a2 → sim R h1 h2 (mret a1) (mret a2).
Proof.
  intros HR. exists (Ret a1), (Ret a2), [], [].
  split_and!; [| | done]; intros; by rewrite ret_run, !app_nil_r.
Qed.

Lemma sim_stop (R : A → A → Prop) r : sim R h1 h2 (stop r) (stop r).
Proof.
  exists (Abort r), (Abort r), [], [].
  split_and!; [| | done]; intros; unfold stop; by rewrite !app_nil_r.
Qed.

Lemma sim_index (s : list A) i :
  sim (λ c1 c2, c1 = c2 ∧ s !! i = Some c1) h1 h2 (index s i) (index s i).
Proof.
  unfold index. destruct (s !! i) as [c|]; [by apply sim_ret | apply sim_stop].
Qed.

Lemma sim_bind {B} (R : A → A → Prop) (R' : B → B → Prop) m1 m2 f1 f2 :
  sim R h1 h2 m1 m2 →
  (∀ a1 a2, R a1 a2 → sim R' h1 h2 (f1 a1) (f2 a2)) →
  sim R' h1 h2 (m1 ≫= f1) (m2 ≫= f2).
Proof.
  intros (r1 & r2 & o & t & E1 & E2 & HR) Hf.
  destruct r1 as [a1|x1], r2 as [a2|x2]; simpl in HR; try done.
  - destruct (Hf a1 a2 HR) as (r1' & r2' & o' & t' & E1' & E2' & HR').
    exists r1', r2', (o ++ o'), (t ++ t'). split_and!; [| | done]; intros out tr.
    + by rewrite (bind_ret _ _ _ _ _ (E1 out tr)), E1', !app_assoc.
    + by rewrite (bind_ret _ _ _ _ _ (E2 out tr)), E2', !app_assoc.
  - subst x2. exists (Abort x1), (Abort x1), o, t.
    split_and!; [| | done]; intros out tr.
    + by rewrite (bind_abort _ _ _ _ _ (E1 out tr)).
    + by rewrite (bind_abort _ _ _ _ _ (E2 out tr)).
Qed.

End Sim.

Section SimUnit.

Context (h1 h2 : gmap loc SubGraph).

Lemma sim_Printf s : sim eq h1 h2 (Printf s) (Printf s).
Proof.
  exists (Ret tt), (Ret tt), [s], [].
  split_and!; [| | done]; intros; unfold Printf; simpl; by rewrite app_nil_r.
Qed.

Lemma sim_tick e : sim eq h1 h2 (tick e) (tick e).
Proof.
  exists (Ret tt), (Ret tt), [], [e].
  split_and!; [| | done]; intros; unfold tick; simpl; by rewrite app_nil_r.
Qed.

Lemma sim_load l n1 n2 :
  h1 !! l = Some n1 → h2 !! l = Some n2 →
  sim (λ a1 a2, a1 = n1 ∧ a2 = n2) h1 h2 (load (Some l)) (load (Some l)).
Proof.
  intros E1 E2. exists (Ret n1), (Ret n2), [], [].
  split_and!; [| | done]; intros; unfold load; simpl;
    rewrite ?E1, ?E2; by rewrite !app_nil_r.
Qed.

Lemma sim_load_fail {B} (R : B → B → Prop) p f1 f2 :
  (if p is Some l then h1 !! l = None ∧ h2 !! l = None else True) →
  sim R h1 h2 (load p ≫= f1) (load p ≫= f2).
Proof.
  intros H. exists (Abort (Panic NilDereference)), (Abort (Panic NilDereference)), [], [].
  split_and!; [| | done]; intros; rewrite bind_run; unfold load; simpl;
    destruct p as [l|]; rewrite ?app_nil_r; try done;
    destruct H as [E1 E2]; by rewrite ?E1, ?E2.
Qed.

Lemma sim_for_each {A} (xs : list A) b1 b2 :
  (∀ x, x ∈ xs → sim eq h1 h2 (b1 x) (b2 x)) →
  sim eq h1 h2 (for_each xs b1) (for_each xs b2).
Proof.
  induction xs as [|x xs IH]; intros Hb.
  - rewrite !for_each_nil. by apply sim_ret.
  - rewrite !for_each_cons. eapply sim_bind.
    + apply Hb. left.
    + intros _ _ _. apply IH. intros y Hy. apply Hb. by right.
Qed.

End SimUnit.

Lemma DebugSubgraph_sim fmt_q fmt_v_List h1 h2 fuel sg indent :
  (∀ l, reachable h1 sg l → but_dest <$> h1 !! l = but_dest <$> h2 !! l) →
  sim eq h1 h2 (DebugSubgraph fmt_q fmt_v_List fuel sg indent)
               (DebugSubgraph fmt_q fmt_v_List fuel sg indent).
Proof.
  revert sg indent. induction fuel as [|fuel IH]; intros sg indent H.
  { apply sim_stop. }
  rewrite DebugSubgraph_S. eapply sim_bind; [apply sim_tick | intros _ _ _].
  destruct sg as [l|]; [| by apply sim_load_fail].
  pose proof (H l (reachable_here _ _)) as Hl.
  destruct (h1 !! l) as [n1|] eqn:E1, (h2 !! l) as [n2|] eqn:E2; simpl in Hl;
    try done; [| by apply sim_load_fail].
  injection Hl as Hattr Hsrc Hch.
  eapply sim_bind; [by apply sim_load | intros ? ? [-> ->]].
  rewrite Hattr. eapply sim_bind; [apply sim_Printf | intros _ _ _].
  eapply sim_bind; [by apply sim_load | intros ? ? [-> ->]].
  rewrite Hsrc. eapply sim_bind; [apply sim_Printf | intros _ _ _].
  eapply sim_bind; [by apply sim_load | intros ? ? [-> ->]].
  rewrite Hch. apply sim_for_each. intros i _.
  eapply sim_bind; [apply sim_Printf | intros _ _ _].
  eapply sim_bind; [by apply sim_load | intros ? ? [-> ->]].
  rewrite Hch. eapply sim_bind; [apply sim_index | intros c ? [<- Hc]].
  apply IH. intros l' Hr. apply H. eapply reachable_child; [done | | done].
  rewrite Hch. by eapply list_elem_of_lookup_2.
Qed.

(** ** Termination *)

Lemma bind_abort_inv {A B} (m : M A) (f : A → M B) w r w' :
  (m ≫= f) w = (Abort r, w') →
  m w = (Abort r, w') ∨ ∃ a w1, m w = (Ret a, w1) ∧ f a w1 = (Abort r, w').
Proof.
  rewrite bind_run. destruct (m w) as [[a|r1] w1]; intros H.
  - right. by exists a, w1.
  - left. by simplify_eq.
Qed.

Lemma load_inv p w r w' : load p w = (r, w') → w' = w ∧ r ≠ Abort OutOfFuel.
Proof.
  unfold load. destruct p as [l|]; [destruct (heap w !! l)|];
    intros [= <- <-]; by split.
Qed.

Lemma index_inv {A} (s : list A) i w c w' :
  index s i w = (Ret c, w') → w' = w ∧ s !! i = Some c.
Proof. unfold index. destruct (s !! i); intros [= <- <-]; by split. Qed.

Lemma index_no_fuel {A} (s : list A) i w w' : index s i w ≠ (Abort OutOfFuel, w').
Proof. unfold index. by destruct (s !! i). Qed.

Lemma DebugSubgraph_terminates fmt_q fmt_v_List fuel d sg indent w w' :
  finite (heap w) d sg = true → d ≤ fuel →
  DebugSubgraph fmt_q fmt_v_List fuel sg indent w ≠ (Abort OutOfFuel, w').
Proof.
  revert d sg indent w w'.
  induction fuel as [|fuel IH]; intros d sg indent w w' Hf Hd H.
  { destruct d; [done | lia]. }
  destruct d as [|d]; [done|]. rewrite DebugSubgraph_S in H. revert H. run_ret.
  destruct sg as [l|]; [|done]. simpl in Hf.
  destruct (heap w !! l) as [n|] eqn:Hn; [|done].
  do 5 run_ret. intros H.
  apply for_each_abort in H as (i & w1 & w1' & _ & Hh & H); cycle 1.
  { intros j. repeat (apply local_bind; [auto with local | intros ?]).
    apply local_DebugSubgraph. }
  revert H. run_ret. intros H.
  apply bind_abort_inv in H as [H | (n' & w2 & Hl & H)].
  { by apply load_inv in H as [_ ?]. }
  apply load_inv in Hl as Hw2. destruct Hw2 as [-> _].
  assert (n' = n) as ->.
  { unfold load in Hl. simpl in Hl, Hh. rewrite Hh, Hn in Hl. by simplify_eq. }
  apply bind_abort_inv in H as [H | (c & w3 & Hi & H)].
  { by apply index_no_fuel in H. }
  apply index_inv in Hi as [-> Hc].
  rewrite forallb_Forall, Forall_forall in Hf.
  eapply (IH d c); [| | exact H]; [| lia].
  simpl. simpl in Hh. rewrite Hh. apply Hf. by eapply list_elem_of_lookup_2.
Qed.

(** ** Strings *)

Lemma string_app_assoc (a b c : string) : (a +:+ b) +:+ c = a +:+ (b +:+ c).
Proof.
  induction a as [|x a IH]; [done|].
  change (String x ((a +:+ b) +:+ c) = String x (a +:+ (b +:+ c))).
  by rewrite IH.
Qed.

Lemma string_app_nil_r (a : string) : a +:+ EmptyString = a.
Proof.
  induction a as [|x a IH]; [done|].
  change (String x (a +:+ EmptyString) = String x a).
  by rewrite IH.
Qed.

Lemma spaces_step indent k :
  (indent +:+ "    ") +:+ spaces (4 * k) = indent +:+ spaces (4 * S k).
Proof.
  replace (4 * S k) with (S (S (S (S (4 * k))))) by lia.
  rewrite string_app_assoc. done.
Qed.

(** ** The shape of a dump *)

Section DumpShape.

Variable fmt_q : string → string.
Variable fmt_v_List : option List → string.

Lemma dump_lines_node h d l n indent :
  h !! l = Some n →
  dump_lines fmt_q fmt_v_List h (S d) (Some l) indent =
  (indent +:+ "Attr=" +:+ fmt_q (Attr n) +:+ nl) ::
  (indent +:+ "  SrcUids=" +:+ fmt_v_List (SrcUIDs n) +:+ nl) ::
  concat (imap (λ i c,
    (indent +:+ "  Child=" +:+ fmt_d i +:+ nl) ::
    dump_lines fmt_q fmt_v_List h d c (indent +:+ "    ")) (Children n)).
Proof. intros Hn. simpl. by rewrite Hn. Qed.

Lemma dump_lines_descends h d p indent k l :
  complete h d p = true → descends h p k l →
  ∃ before after,
    dump_lines fmt_q fmt_v_List h d p indent =
    before ++ dump_lines fmt_q fmt_v_List h (d - k) (Some l) (indent +:+ spaces (4 * k))
           ++ after.
Proof.
  intros Hc H. revert d indent Hc.
  induction H as [l | l n c k l' Hn Hin H IH]; intros d indent Hc.
  - exists [], []. rewrite Nat.sub_0_r, app_nil_r. simpl.
    by rewrite string_app_nil_r.
  - destruct d as [|d]; [done|]. simpl in Hc. rewrite Hn in Hc.
    rewrite forallb_Forall, Forall_forall in Hc.
    destruct (IH d (indent +:+ "    ") (Hc _ Hin)) as (b & a & E).
    rewrite (dump_lines_node _ _ _ _ _ Hn).
    apply list_elem_of_split in Hin as (cs1 & cs2 & ->).
    rewrite imap_app, concat_app, imap_cons. simpl concat.
    rewrite E, spaces_step. change (S d - S k) with (d - k).
    generalize (dump_lines fmt_q fmt_v_List h (d - k) (Some l')
                  (indent +:+ spaces (4 * S k))).
    intros X.
    lazymatch goal with
    | |- ∃ _ _, ?l1 :: ?l2 :: ?c1 ++ ?cl :: (b ++ X ++ a) ++ ?c2 = _ =>
        exists (l1 :: l2 :: c1 ++ cl :: b), (a ++ c2);
        generalize l1 l2 c1 cl c2
    end.
    intros l1 l2 c1 cl c2.
    rewrite <- !app_comm_cons, <- !app_assoc. by do 2 f_equal.
Qed.

End DumpShape.

(** * The claims *)

Lemma node_violation_violating n :
  (∃ m, node_violation n = Some m) ↔
  violating_pair (sourceIds n) ∨ violating_pair (destIds n).
Proof.
  unfold node_violation. rewrite <- !sortedb_violating.
  destruct (sortedb (sourceIds n)), (sortedb (destIds n)); split;
    intros H; try (by eexists); try (by left); try (by right).
  - by destruct H.
  - by destruct H.
Qed.

Lemma tree_violation_iff h d p :
  finite h d p = true →
  (∃ m, tree_violation h d p = Some m) ↔
  (∃ l n, reachable h p l ∧ h !! l = Some n ∧
          (violating_pair (sourceIds n) ∨ violating_pair (destIds n))).
Proof.
  intros Hf. split.
  - intros [m H]. apply tree_violation_some in H as (l & n & Hr & Hn & Hv).
    exists l, n. split_and!; [done | done |].
    apply node_violation_violating. by exists m.
  - intros (l & n & Hr & Hn & Hv).
    destruct (tree_violation h d p) as [m|] eqn:E; [by exists m|].
    apply node_violation_violating in Hv as [m Hv].
    by rewrite (tree_violation_none h d p Hf E l n Hr Hn) in Hv.
Qed.

Lemma AssertSorted_outcome fuel d sg w :
  finite (heap w) d sg = true → d ≤ fuel →
  (AssertSorted fuel sg w).1 = verdict (tree_violation (heap w) d sg).
Proof.
  intros Hf Hd. destruct (AssertSorted_run fuel d sg w Hf Hd) as (t & E & _).
  by rewrite E.
Qed.

(** C1.  On a finite tree the validator reports a violation if and only if
    some node of the tree has an adjacent pair earlier >= later in its
    sourceIds or destIds list.  When every node's sourceIds and destIds are
    strictly increasing it succeeds, on the whole tree and on every subtree;
    when some node, at any depth, has such a pair it reports a violation. *)
Theorem C1_validate_iff_violating_pair h d sg fuel w :
  heap w = h → finite h d sg = true → d ≤ fuel →
  ((∃ m, (AssertSorted fuel sg w).1 = Abort (Fatal m)) ↔
   (∃ l n, reachable h sg l ∧ h !! l = Some n ∧
           (violating_pair (sourceIds n) ∨ violating_pair (destIds n)))) ∧
  ((∀ l n, reachable h sg l → h !! l = Some n →
           strictly_increasing (sourceIds n) ∧ strictly_increasing (destIds n)) →
   (AssertSorted fuel sg w).1 = Ret tt ∧
   ∀ l, reachable h sg l → (AssertSorted fuel (Some l) w).1 = Ret tt) ∧
  (∀ l n, reachable h sg l → h !! l = Some n →
          violating_pair (sourceIds n) ∨ violating_pair (destIds n) →
          ∃ m, (AssertSorted fuel sg w).1 = Abort (Fatal m)).
Proof.
  intros <- Hf Hd.
  assert (Hiff : (∃ m, (AssertSorted fuel sg w).1 = Abort (Fatal m)) ↔
                 (∃ l n, reachable (heap w) sg l ∧ heap w !! l = Some n ∧
                   (violating_pair (sourceIds n) ∨ violating_pair (destIds n)))).
  { rewrite <- (tree_violation_iff _ d) by done.
    rewrite (AssertSorted_outcome fuel d) by done.
    destruct (tree_violation (heap w) d sg) as [m|]; simpl; split;
      intros [m' H]; first [by exists m | done]. }
  split_and!; [done | |].
  - intros Hall.
    assert (Hsub : ∀ l, reachable (heap w) sg l →
                        (AssertSorted fuel (Some l) w).1 = Ret tt).
    { intros l Hl.
      rewrite (AssertSorted_outcome fuel d)
        by first [done | by eapply finite_reachable].
      destruct (tree_violation (heap w) d (Some l)) as [m|] eqn:E; [|done].
      apply tree_violation_some in E as (l' & n & Hr & Hn & Hv).
      assert (∃ m, node_violation n = Some m) as Hm by (by exists m).
      apply node_violation_violating in Hm.
      destruct (Hall l' n (reachable_trans _ _ _ _ Hl Hr) Hn) as [Hs Hdst].
      destruct Hm as [Hm | Hm]; apply violating_not_increasing in Hm; done. }
    split; [|done].
    rewrite (AssertSorted_outcome fuel d) by done.
    destruct (tree_violation (heap w) d sg) as [m|] eqn:E; [|done].
    apply tree_violation_some in E as (l' & n & Hr & Hn & Hv).
    assert (∃ m, node_violation n = Some m) as Hm by (by exists m).
    apply node_violation_violating in Hm.
    destruct (Hall l' n Hr Hn) as [Hs Hdst].
    destruct Hm as [Hm | Hm]; apply violating_not_increasing in Hm; done.
  - intros l n Hr Hn Hv. apply Hiff. by exists l, n.
Qed.

Lemma forum_heap_finite : finite forum_heap 2 (Some 0) = true.
Proof. reflexivity. Qed.

Lemma bad_heap_finite : finite bad_heap 2 (Some 0) = true.
Proof. reflexivity. Qed.

(** The tree of the example violation: the thread, one level down, has the
    destination list [11 10]. *)
Lemma C1_witness :
  ((∃ m, (AssertSorted 2 (Some 0) (start bad_heap)).1 = Abort (Fatal m)) ↔
   (∃ l n, reachable bad_heap (Some 0) l ∧ bad_heap !! l = Some n ∧
           (violating_pair (sourceIds n) ∨ violating_pair (destIds n)))) ∧
  ((∀ l n, reachable bad_heap (Some 0) l → bad_heap !! l = Some n →
           strictly_increasing (sourceIds n) ∧ strictly_increasing (destIds n)) →
   (AssertSorted 2 (Some 0) (start bad_heap)).1 = Ret tt ∧
   ∀ l, reachable bad_heap (Some 0) l →
        (AssertSorted 2 (Some l) (start bad_heap)).1 = Ret tt) ∧
  (∀ l n, reachable bad_heap (Some 0) l → bad_heap !! l = Some n →
          violating_pair (sourceIds n) ∨ violating_pair (destIds n) →
          ∃ m, (AssertSorted 2 (Some 0) (start bad_heap)).1 = Abort (Fatal m)).
Proof.
  apply (C1_validate_iff_violating_pair bad_heap 2 (Some 0) 2 (start bad_heap)).
  - reflexivity.
  - exact bad_heap_finite.
  - lia.
Defined.

(** The example scenario validates; the example violation is reported with
    the kind "dest uid" and the list [11 10]. *)
Example validate_forum : (AssertSorted 2 (Some 0) (start forum_heap)).1 = Ret tt.
Proof. reflexivity. Qed.

Example validate_bad :
  (AssertSorted 2 (Some 0) (start bad_heap)).1 =
  Abort (Fatal "dest uid list not sorted: [11 10]").
Proof. reflexivity. Qed.

(** C2, as stated, fails: the root of [halt_heap] has the source list [3 2],
    whose first violating pair is at index 0; the validator halts with a
    message made of the tag and the list, in which the index does not
    occur. *)
Lemma C2_message_has_no_index :
  (AssertSorted 2 (Some 0) (start halt_heap)).1 =
    Abort (Fatal "src uid list not sorted: [3 2]") ∧
  first_violation (sourceIds root_bad) = Some 0 ∧
  occurs (fmt_d 0) "src uid list not sorted: [3 2]" = false.
Proof. split_and!; reflexivity. Qed.

(** C2, amended.  The check of one list fails exactly when the list has a
    first violating pair, and its message is then the tag it was given, the
    phrase " list not sorted: " and the full contents of the list, whatever
    the index of the pair.  A violation reported by the validator on a tree
    is the message of a node of the tree: tagged "src uid" with the node's
    full sourceIds, or tagged "dest uid" with its full destIds, the list
    named having a violating pair. *)
Theorem C2_failure_message :
  (∀ pl tag w,
     (AssertUidListSorted pl tag w).1 =
     match first_violation (GetUids pl) with
     | Some _ => Abort (Fatal (tag +:+ " list not sorted: " +:+ fmt_v (GetUids pl)))
     | None => Ret tt
     end) ∧
  (∀ fuel sg w m w',
     AssertSorted fuel sg w = (Abort (Fatal m), w') →
     ∃ l n, reachable (heap w) sg l ∧ heap w !! l = Some n ∧
       ((m = "src uid" +:+ " list not sorted: " +:+ fmt_v (sourceIds n) ∧
         violating_pair (sourceIds n)) ∨
        (m = "dest uid" +:+ " list not sorted: " +:+ fmt_v (destIds n) ∧
         violating_pair (destIds n)))).
Proof.
  split.
  - intros pl tag w. rewrite AssertUidListSorted_run. simpl.
    destruct (first_violation (GetUids pl)) as [i|] eqn:E.
    + destruct (sortedb (GetUids pl)) eqn:Hs; [|done].
      apply first_violation_sorted in Hs. congruence.
    + apply first_violation_sorted in E. by rewrite E.
  - intros fuel sg w m w' H.
    apply AssertSorted_fatal in H as (l & n & Hr & Hn & Hv).
    exists l, n. split_and!; [done | done |].
    by apply node_violation_some.
Qed.

Lemma C2_witness :
  ∃ l n, reachable (heap (start bad_heap)) (Some 0) l ∧
         heap (start bad_heap) !! l = Some n ∧
    (("dest uid list not sorted: [11 10]" =
        "src uid" +:+ " list not sorted: " +:+ fmt_v (sourceIds n) ∧
      violating_pair (sourceIds n)) ∨
     ("dest uid list not sorted: [11 10]" =
        "dest uid" +:+ " list not sorted: " +:+ fmt_v (destIds n) ∧
      violating_pair (destIds n))).
Proof.
  apply (proj2 C2_failure_message 2 (Some 0) (start bad_heap) _
           (AssertSorted 2 (Some 0) (start bad_heap)).2).
  reflexivity.
Defined.

(** C3.  On a node of a result tree (the node and every child below it
    present), for every indentation prefix, the dumper returns after writing
    exactly: the line [<indent>Attr=<label>] with the label quoted; the line
    [<indent>  SrcUids=<sourceIds>]; then, for each child in stored order, the
    line [<indent>  Child=<index>], indices from zero, followed by what the
    dumper writes on that child with the indent extended by four spaces.  With
    the list rendering of the specification the source list [1,5,9] of the
    example gives [SrcUids=[1 5 9]]. *)
Theorem C3_dump_lines :
  (∀ fmt_q fmt_v_List h d l n indent fuel w,
     heap w = h → h !! l = Some n → complete h d (Some l) = true → d ≤ fuel →
     (∃ t, DebugSubgraph fmt_q fmt_v_List fuel (Some l) indent w =
        (Ret tt,
         emit w
           ((indent +:+ "Attr=" +:+ fmt_q (Attr n) +:+ nl) ::
            (indent +:+ "  SrcUids=" +:+ fmt_v_List (SrcUIDs n) +:+ nl) ::
            concat (imap (λ i c,
              (indent +:+ "  Child=" +:+ fmt_d i +:+ nl) ::
              dump_lines fmt_q fmt_v_List h (d - 1) c (indent +:+ "    "))
              (Children n)))
           t)) ∧
     (∀ i c w', Children n !! i = Some c → heap w' = h →
        ∃ t', DebugSubgraph fmt_q fmt_v_List (fuel - 1) c (indent +:+ "    ") w' =
          (Ret tt,
           emit w' (dump_lines fmt_q fmt_v_List h (d - 1) c (indent +:+ "    ")) t'))) ∧
  DebugSubgraph quote_ascii List_String 2 (Some 0) EmptyString (start forum_heap) =
    (Ret tt,
     mkWorld forum_heap
       [ "Attr=" +:+ dquote +:+ "forum" +:+ dquote +:+ nl;
         "  SrcUids=[1 5 9]" +:+ nl;
         "  Child=0" +:+ nl;
         "    Attr=" +:+ dquote +:+ "thread" +:+ dquote +:+ nl;
         "      SrcUids=[2 4]" +:+ nl ]
       [Call (Some 0); Call (Some 1)]).
Proof.
  split; [|reflexivity].
  intros fmt_q fmt_v_List h d l n indent fuel w <- Hn Hc Hd.
  destruct d as [|d]; [done|]. split.
  - eexists. rewrite (DebugSubgraph_run _ _ fuel (S d)) by done.
    rewrite (dump_lines_node _ _ _ _ _ _ _ Hn).
    by rewrite Nat.sub_succ, Nat.sub_0_r.
  - intros i c w' Hi Hw'. simpl in Hc. rewrite Hn in Hc.
    rewrite forallb_Forall, Forall_forall in Hc.
    eexists. rewrite Nat.sub_succ, Nat.sub_0_r, <- Hw'.
    apply DebugSubgraph_run; [| lia].
    rewrite Hw'. apply Hc. by eapply list_elem_of_lookup_2.
Qed.

Lemma forum_heap_complete : complete forum_heap 2 (Some 0) = true.
Proof. reflexivity. Qed.

Lemma C3_witness :
  (∃ t, DebugSubgraph quote_ascii List_String 2 (Some 0) "> " (start forum_heap) =
     (Ret tt,
      emit (start forum_heap)
        (("> " +:+ "Attr=" +:+ quote_ascii (Attr forum) +:+ nl) ::
         ("> " +:+ "  SrcUids=" +:+ List_String (SrcUIDs forum) +:+ nl) ::
         concat (imap (λ i c,
           ("> " +:+ "  Child=" +:+ fmt_d i +:+ nl) ::
           dump_lines quote_ascii List_String forum_heap (2 - 1) c ("> " +:+ "    "))
           (Children forum)))
        t)) ∧
  (∀ i c w', Children forum !! i = Some c → heap w' = forum_heap →
     ∃ t', DebugSubgraph quote_ascii List_String (2 - 1) c ("> " +:+ "    ") w' =
       (Ret tt,
        emit w' (dump_lines quote_ascii List_String forum_heap (2 - 1) c
                   ("> " +:+ "    ")) t')).
Proof.
  apply (proj1 C3_dump_lines quote_ascii List_String forum_heap 2 0 forum "> " 2
           (start forum_heap)).
  - reflexivity.
  - reflexivity.
  - exact forum_heap_complete.
  - lia.
Defined.

(** C4.  The validator returns at once on an absent tree; the check of a list
    of length 0 or 1 returns without comparing anything, whatever its tag and
    whatever was checked before; and a violation reported on a tree, whatever
    the tree, names a list of at least two identifiers of one of its nodes. *)
Theorem C4_vacuous_inputs :
  (∀ fuel w, AssertSorted (S fuel) None w = (Ret tt, emit w [] [Call None])) ∧
  (∀ pl tag w, length (GetUids pl) ≤ 1 → AssertUidListSorted pl tag w = (Ret tt, w)) ∧
  (∀ fuel sg w m w',
     AssertSorted fuel sg w = (Abort (Fatal m), w') →
     ∃ l n, reachable (heap w) sg l ∧ heap w !! l = Some n ∧
       ((m = not_sorted_msg "src uid" (sourceIds n) ∧ 2 ≤ length (sourceIds n)) ∨
        (m = not_sorted_msg "dest uid" (destIds n) ∧ 2 ≤ length (destIds n)))).
Proof.
  split_and!.
  - intros fuel w. rewrite AssertSorted_S. run_ret. apply ret_run.
  - intros pl tag w Hlen. rewrite AssertUidListSorted_run.
    by rewrite sortedb_short, compared_short, emit_nil.
  - intros fuel sg w m w' H.
    apply AssertSorted_fatal in H as (l & n & Hr & Hn & Hv).
    exists l, n. split_and!; [done | done |].
    apply node_violation_some in Hv as [[-> Hv] | [-> Hv]];
      [left | right]; (split; [done | by apply violating_length]).
Qed.

(** A one-element list next to a violation of the other list of the same
    node ([root_bad]) and an absent destination list ([forum]). *)
Lemma C4_witness :
  AssertUidListSorted (DestUIDs root_bad) "dest uid" (start halt_heap) =
    (Ret tt, start halt_heap) ∧
  AssertUidListSorted (DestUIDs forum) "dest uid" (start forum_heap) =
    (Ret tt, start forum_heap) ∧
  ∃ l n, reachable (heap (start halt_heap)) (Some 0) l ∧
         heap (start halt_heap) !! l = Some n ∧
    (("src uid list not sorted: [3 2]" = not_sorted_msg "src uid" (sourceIds n) ∧
      2 ≤ length (sourceIds n)) ∨
     ("src uid list not sorted: [3 2]" = not_sorted_msg "dest uid" (destIds n) ∧
      2 ≤ length (destIds n))).
Proof.
  destruct C4_vacuous_inputs as (_ & Hshort & Hfatal). split_and!.
  - apply Hshort. simpl. lia.
  - apply Hshort. simpl. lia.
  - apply (Hfatal 2 (Some 0) (start halt_heap) _
             (AssertSorted 2 (Some 0) (start halt_heap)).2).
    reflexivity.
Defined.

(** C7 does not hold of the code: called on [nil], the dumper writes nothing
    and stops on a nil pointer dereference, where the validator returns. *)
Theorem C7_dump_nil_panics fmt_q fmt_v_List fuel indent w :
  DebugSubgraph fmt_q fmt_v_List (S fuel) None indent w =
    (Abort (Panic NilDereference), emit w [] [Call None]) ∧
  AssertSorted (S fuel) None w = (Ret tt, emit w [] [Call None]).
Proof.
  split.
  - rewrite DebugSubgraph_S. run_ret. by apply bind_abort.
  - rewrite AssertSorted_S. run_ret. apply ret_run.
Qed.

(** C8.  Neither pass writes to the store: after a call of the validator or
    of the dumper, however it stops, the store is the one before the call, so
    every node reachable from the argument has the label, the lists and the
    children, in the order, it had. *)
Theorem C8_read_only fmt_q fmt_v_List fuel sg indent w :
  heap (AssertSorted fuel sg w).2 = heap w ∧
  heap (DebugSubgraph fmt_q fmt_v_List fuel sg indent w).2 = heap w ∧
  (∀ l n, reachable (heap w) sg l → heap w !! l = Some n →
     heap (AssertSorted fuel sg w).2 !! l = Some n ∧
     heap (DebugSubgraph fmt_q fmt_v_List fuel sg indent w).2 !! l = Some n).
Proof.
  destruct (local_run _ w (local_AssertSorted fuel sg)) as (r1 & o1 & t1 & E1).
  destruct (local_run _ w (local_DebugSubgraph fmt_q fmt_v_List fuel sg indent))
    as (r2 & o2 & t2 & E2).
  rewrite E1, E2. simpl. split_and!; [done | done |].
  intros l n _ Hn. by split.
Qed.

Lemma C8_witness :
  heap (AssertSorted 2 (Some 0) (start bad_heap)).2 !! 1 = Some thread_bad ∧
  heap (DebugSubgraph quote_ascii List_String 2 (Some 0) EmptyString
          (start bad_heap)).2 !! 1 = Some thread_bad.
Proof.
  apply (proj2 (proj2 (C8_read_only quote_ascii List_String 2 (Some 0) EmptyString
                         (start bad_heap)))).
  - exists 1. apply (descends_child bad_heap 0 forum (Some 1) 0 1).
    + reflexivity.
    + left.
    + constructor.
  - reflexivity.
Defined.

(** C9.  The check of a nil list returns without performing a comparison and
    without touching the world; no check, of any list, stops on a run-time
    panic; and a check that performs a comparison was given a non-nil list
    of at least two identifiers. *)
Theorem C9_nil_list :
  (∀ tag w, AssertUidListSorted None tag w = (Ret tt, w)) ∧
  (∀ pl tag w f, (AssertUidListSorted pl tag w).1 ≠ Abort (Panic f)) ∧
  (∀ pl tag w,
     comparisons (trace (AssertUidListSorted pl tag w).2) ≠ comparisons (trace w) →
     ∃ l, pl = Some l ∧ 2 ≤ length (Uids l)).
Proof.
  split_and!.
  - intros tag w. rewrite AssertUidListSorted_run. simpl. by rewrite emit_nil.
  - intros pl tag w f. rewrite AssertUidListSorted_run. simpl.
    by destruct (sortedb (GetUids pl)).
  - intros pl tag w. rewrite AssertUidListSorted_run. simpl.
    destruct pl as [l|]; simpl.
    + intros H. exists l. split; [done|].
      destruct (decide (2 ≤ length (Uids l))) as [|Hlen]; [done|].
      rewrite compared_short, app_nil_r in H by lia. done.
    + rewrite app_nil_r. done.
Qed.

Lemma C9_witness : ∃ l, uids [11; 10]%N = Some l ∧ 2 ≤ length (Uids l).
Proof.
  apply (proj2 (proj2 C9_nil_list) (uids [11; 10]%N) "dest uid" (start bad_heap)).
  vm_compute. discriminate.
Defined.

Lemma sim_worlds (h1 h2 : gmap loc SubGraph) (m1 m2 : M unit) w1 w2 :
  sim eq h1 h2 m1 m2 → heap w1 = h1 → heap w2 = h2 →
  ∃ r o t, m1 w1 = (r, emit w1 o t) ∧ m2 w2 = (r, emit w2 o t).
Proof.
  intros (r1 & r2 & o & t & E1 & E2 & HR) <- <-.
  assert (r1 = r2) as <-.
  { destruct r1 as [[]|x1], r2 as [[]|x2]; simpl in HR; by subst. }
  exists r1, o, t. split.
  - rewrite <- (world_eta w1) at 1. apply E1.
  - rewrite <- (world_eta w2) at 1. apply E2.
Qed.

Lemma complete_descends h d p k l :
  complete h d p = true → descends h p k l → complete h (d - k) (Some l) = true.
Proof.
  intros Hc H. revert d Hc.
  induction H as [l | l n c k l' Hn Hin H IH]; intros d Hc.
  - by rewrite Nat.sub_0_r.
  - destruct d as [|d]; [done|]. simpl in Hc. rewrite Hn in Hc.
    rewrite forallb_Forall, Forall_forall in Hc.
    change (S d - S k) with (d - k). by apply IH, Hc.
Qed.

(** C6.  The output of the dumper does not depend on destIds: from two
    stores that are identical except in the destination lists of their nodes,
    the dumper writes the same lines and stops the same way. *)
Theorem C6_dump_ignores_destIds fmt_q fmt_v_List h1 h2 fuel sg indent w1 w2 :
  same_but_dest h1 h2 → heap w1 = h1 → heap w2 = h2 →
  ∃ r o t,
    DebugSubgraph fmt_q fmt_v_List fuel sg indent w1 = (r, emit w1 o t) ∧
    DebugSubgraph fmt_q fmt_v_List fuel sg indent w2 = (r, emit w2 o t).
Proof.
  intros Hsame Hw1 Hw2. apply (sim_worlds h1 h2); [| done | done].
  apply DebugSubgraph_sim. intros l _. apply Hsame.
Qed.

Lemma forum_bad_same_but_dest : same_but_dest forum_heap bad_heap.
Proof.
  intros l. unfold forum_heap, bad_heap.
  destruct (decide (l = 0)) as [->|]; [reflexivity|].
  rewrite !lookup_insert_ne by done.
  destruct (decide (l = 1)) as [->|]; [reflexivity|].
  by rewrite !lookup_insert_ne.
Qed.

(** The forum tree and the tree of the example violation differ in the
    thread's destination list only, and dump alike. *)
Lemma C6_witness :
  ∃ r o t,
    DebugSubgraph quote_ascii List_String 2 (Some 0) EmptyString (start forum_heap) =
      (r, emit (start forum_heap) o t) ∧
    DebugSubgraph quote_ascii List_String 2 (Some 0) EmptyString (start bad_heap) =
      (r, emit (start bad_heap) o t).
Proof.
  apply (C6_dump_ignores_destIds quote_ascii List_String forum_heap bad_heap).
  - exact forum_bad_same_but_dest.
  - reflexivity.
  - reflexivity.
Defined.

(** C5.  The dumper is deterministic.  Called again on the unchanged tree
    with the same prefix it writes the same lines again and stops the same
    way; from two stores holding the same tree it writes the same lines.  On a
    result tree the lines are those of the depth-first pre-order walk,
    children in stored order: the lines of a node [k] levels down are the
    lines of that node under the prefix extended by [4 * k] spaces, and the
    lines of a node are its two own lines followed by one block per child,
    as many blocks as children, the block of child [i] starting with the
    line [Child=i]. *)
Theorem C5_dump_deterministic :
  (∀ fmt_q fmt_v_List fuel sg indent w,
     ∃ r o t,
       DebugSubgraph fmt_q fmt_v_List fuel sg indent w = (r, emit w o t) ∧
       DebugSubgraph fmt_q fmt_v_List fuel sg indent (emit w o t) =
         (r, emit (emit w o t) o t)) ∧
  (∀ fmt_q fmt_v_List h1 h2 fuel sg indent w1 w2,
     same_tree h1 h2 sg → heap w1 = h1 → heap w2 = h2 →
     ∃ r o t,
       DebugSubgraph fmt_q fmt_v_List fuel sg indent w1 = (r, emit w1 o t) ∧
       DebugSubgraph fmt_q fmt_v_List fuel sg indent w2 = (r, emit w2 o t)) ∧
  (∀ fmt_q fmt_v_List h d sg indent fuel w,
     heap w = h → complete h d sg = true → d ≤ fuel →
     DebugSubgraph fmt_q fmt_v_List fuel sg indent w =
       (Ret tt, emit w (dump_lines fmt_q fmt_v_List h d sg indent)
                  (Call ∘ Some <$> preorder h d sg)) ∧
     (∀ k l n, descends h sg k l → h !! l = Some n →
        ∃ before after blocks,
          dump_lines fmt_q fmt_v_List h d sg indent =
            before ++
            ((indent +:+ spaces (4 * k)) +:+ "Attr=" +:+ fmt_q (Attr n) +:+ nl) ::
            ((indent +:+ spaces (4 * k)) +:+ "  SrcUids=" +:+
               fmt_v_List (SrcUIDs n) +:+ nl) ::
            concat blocks ++ after ∧
          length blocks = length (Children n) ∧
          ∀ i c, Children n !! i = Some c →
            blocks !! i =
            Some (((indent +:+ spaces (4 * k)) +:+ "  Child=" +:+ fmt_d i +:+ nl) ::
                  dump_lines fmt_q fmt_v_List h (d - S k) c
                    ((indent +:+ spaces (4 * k)) +:+ "    ")))).
Proof.
  split_and!.
  - intros fmt_q fmt_v_List fuel sg indent w.
    destruct (local_DebugSubgraph fmt_q fmt_v_List fuel sg indent (heap w))
      as (r & o & t & E).
    exists r, o, t. split.
    + rewrite <- (world_eta w) at 1. apply E.
    + apply E.
  - intros fmt_q fmt_v_List h1 h2 fuel sg indent w1 w2 Hsame Hw1 Hw2.
    apply (sim_worlds h1 h2); [| done | done].
    apply DebugSubgraph_sim. intros l Hl. by rewrite (Hsame l Hl).
  - intros fmt_q fmt_v_List h d sg indent fuel w <- Hc Hd. split.
    + by apply DebugSubgraph_run.
    + intros k l n Hk Hn.
      destruct (dump_lines_descends fmt_q fmt_v_List _ _ _ indent _ _ Hc Hk)
        as (before & after & E).
      pose proof (complete_descends _ _ _ _ _ Hc Hk) as Hcl.
      destruct (d - k) as [|d'] eqn:Hdk; [done|].
      rewrite (dump_lines_node _ _ _ _ _ _ _ Hn) in E.
      replace (d - S k) with d' by lia.
      eexists before, after, _. split_and!.
      * rewrite E. reflexivity.
      * by rewrite length_imap.
      * intros i c Hi. by rewrite list_lookup_imap, Hi.
Qed.

Lemma forum_reachable l : reachable forum_heap (Some 0) l → l = 0 ∨ l = 1.
Proof.
  intros H. apply reachable_inv in H as [-> | (n & c & Hn & Hc & H)]; [by left|].
  right. injection Hn as <-. apply list_elem_of_singleton in Hc as ->.
  apply reachable_inv in H as [-> | (n & c & Hn & Hc & H)]; [done|].
  injection Hn as <-. by apply elem_of_nil in Hc.
Qed.

Lemma forum_descends_thread : descends forum_heap (Some 0) 1 1.
Proof.
  apply (descends_child forum_heap 0 forum (Some 1) 0 1).
  - reflexivity.
  - left.
  - constructor.
Qed.

(** The forum tree in a store that also holds a node outside the tree dumps
    as in its own store, and its thread, one level down, is written four
    spaces deeper. *)
Lemma C5_witness :
  (∃ r o t,
     DebugSubgraph quote_ascii List_String 2 (Some 0) EmptyString (start forum_heap) =
       (r, emit (start forum_heap) o t) ∧
     DebugSubgraph quote_ascii List_String 2 (Some 0) EmptyString
       (start (<[2 := thread_bad]> forum_heap)) =
       (r, emit (start (<[2 := thread_bad]> forum_heap)) o t)) ∧
  (∃ before after blocks,
     dump_lines quote_ascii List_String forum_heap 2 (Some 0) EmptyString =
       before ++
       ((EmptyString +:+ spaces (4 * 1)) +:+ "Attr=" +:+ quote_ascii (Attr thread) +:+ nl) ::
       ((EmptyString +:+ spaces (4 * 1)) +:+ "  SrcUids=" +:+
          List_String (SrcUIDs thread) +:+ nl) ::
       concat blocks ++ after ∧
     length blocks = length (Children thread) ∧
     ∀ i c, Children thread !! i = Some c →
       blocks !! i =
       Some (((EmptyString +:+ spaces (4 * 1)) +:+ "  Child=" +:+ fmt_d i +:+ nl) ::
             dump_lines quote_ascii List_String forum_heap (2 - 2) c
               ((EmptyString +:+ spaces (4 * 1)) +:+ "    "))).
Proof.
  destruct C5_dump_deterministic as (_ & Hstores & Htree). split.
  - apply (Hstores quote_ascii List_String forum_heap (<[2 := thread_bad]> forum_heap)).
    + intros l Hl. apply forum_reachable in Hl as [-> | ->]; reflexivity.
    + reflexivity.
    + reflexivity.
  - apply (proj2 (Htree quote_ascii List_String forum_heap 2 (Some 0) EmptyString 2
                    (start forum_heap) eq_refl eq_refl (le_n 2)) 1 1 thread).
    + exact forum_descends_thread.
    + reflexivity.
Defined.

Lemma halt_heap_unshared : unshared halt_heap 2 (Some 0).
Proof.
  unfold unshared. change (preorder halt_heap 2 (Some 0)) with [0; 1].
  apply NoDup_cons. split; [|apply NoDup_singleton].
  intros H. by apply list_elem_of_singleton in H.
Qed.

(** C10, as stated, fails: [halt_heap] is a finite tree of two nodes; the
    validator halts at the root, whose source list is [3 2], and never enters
    the child. *)
Lemma C10_halted_pass_skips_child :
  finite halt_heap 2 (Some 0) = true ∧
  unshared halt_heap 2 (Some 0) ∧
  reachable halt_heap (Some 0) 1 ∧
  (AssertSorted 2 (Some 0) (start halt_heap)).1 =
    Abort (Fatal "src uid list not sorted: [3 2]") ∧
  visits (trace (AssertSorted 2 (Some 0) (start halt_heap)).2) 1 = 0.
Proof.
  split_and!; [reflexivity | exact halt_heap_unshared | | reflexivity | reflexivity].
  exists 1. apply (descends_child halt_heap 0 root_bad (Some 1) 0 1).
  - reflexivity.
  - left.
  - constructor.
Qed.

(** The nodes the dumper enters on a finite structure, absent children
    allowed. *)
Section DumperVisits.

Variable fmt_q : string → string.
Variable fmt_v_List : option List → string.
Variables (fuel d : nat).

Hypothesis IH : ∀ sg indent w,
  finite (heap w) d sg = true →
  ∃ r o t,
    DebugSubgraph fmt_q fmt_v_List fuel sg indent w = (r, emit w o t) ∧
    r ≠ Abort OutOfFuel ∧
    visited t `prefix_of` preorder (heap w) d sg ∧
    (r = Ret tt → visited t = preorder (heap w) d sg).

Lemma DebugSubgraph_children_visited l n indent cs i w :
  heap w !! l = Some n →
  drop i (Children n) = cs →
  Forall (λ c, finite (heap w) d c = true) cs →
  ∃ r o t,
    for_each (seq i (length cs)) (λ i,
       Printf (indent +:+ "  Child=" +:+ fmt_d i +:+ nl);;
       n ← load (Some l); ch ← index (Children n) i;
       DebugSubgraph fmt_q fmt_v_List fuel ch (indent +:+ "    ")) w =
      (r, emit w o t) ∧
    r ≠ Abort OutOfFuel ∧
    visited t `prefix_of` concat (preorder (heap w) d <$> cs) ∧
    (r = Ret tt → visited t = concat (preorder (heap w) d <$> cs)).
Proof.
  revert i w. induction cs as [|c cs IHcs]; intros i w Hn Hdrop Hf.
  - exists (Ret tt), [], []. simpl. by rewrite ret_run, emit_nil.
  - apply Forall_cons in Hf as [Hc Hcs].
    assert (Children n !! i = Some c) as Hi.
    { rewrite <- (Nat.add_0_r i), <- lookup_drop. by rewrite Hdrop. }
    assert (drop (S i) (Children n) = cs) as Hdrop'.
    { replace (S i) with (i + 1) by lia. by rewrite <- drop_drop, Hdrop. }
    destruct (IH c (indent +:+ "    ")
                (emit w [indent +:+ "  Child=" +:+ fmt_d i +:+ nl] []) Hc)
      as (r1 & o1 & t1 & E1 & T1 & P1 & C1).
    simpl length. simpl seq. rewrite for_each_cons.
    destruct r1 as [[]|x1].
    + erewrite bind_ret; cycle 1.
      { do 3 run_ret. exact E1. }
      destruct (IHcs (S i)
                  (emit (emit w [indent +:+ "  Child=" +:+ fmt_d i +:+ nl] []) o1 t1))
        as (r2 & o2 & t2 & E2 & T2 & P2 & C2); [done | done | done |].
      rewrite E2, !emit_emit. eexists r2, _, _. split; [done|].
      simpl. rewrite visited_app, (C1 eq_refl).
      split_and!; [done | by apply prefix_app | intros Hr; by rewrite C2].
    + erewrite bind_abort; cycle 1.
      { do 3 run_ret. exact E1. }
      rewrite emit_emit. eexists (Abort x1), _, _. split; [done|].
      simpl. split_and!; [done | by apply prefix_app_r | done].
Qed.

End DumperVisits.

Lemma DebugSubgraph_visited fmt_q fmt_v_List fuel d sg indent w :
  finite (heap w) d sg = true → d ≤ fuel →
  ∃ r o t,
    DebugSubgraph fmt_q fmt_v_List fuel sg indent w = (r, emit w o t) ∧
    r ≠ Abort OutOfFuel ∧
    visited t `prefix_of` preorder (heap w) d sg ∧
    (r = Ret tt → visited t = preorder (heap w) d sg).
Proof.
  revert d sg indent w.
  induction fuel as [|fuel IH]; intros d sg indent w Hf Hd.
  { destruct d; [done | lia]. }
  destruct d as [|d]; [done|]. rewrite DebugSubgraph_S. run_ret.
  destruct sg as [l|]; cycle 1.
  { eexists _, _, _. split; [by apply bind_abort|]. by split_and!. }
  simpl in Hf. simpl preorder.
  destruct (heap w !! l) as [n|] eqn:Hn; [|done].
  rewrite forallb_Forall in Hf. do 5 run_ret.
  assert (Hd' : d ≤ fuel) by lia.
  lazymatch goal with
  | |- context [for_each _ _ ?w'] =>
      destruct (DebugSubgraph_children_visited fmt_q fmt_v_List fuel d
                  (λ sg' ind' w'' Hf', IH d sg' ind' w'' Hf' Hd')
                  l n indent (Children n) 0 w' Hn eq_refl Hf)
        as (r & o & t & E & T & P & C)
  end.
  rewrite E, !emit_emit. eexists r, _, _. split; [done|].
  rewrite !visited_app.
  change (visited [Call (Some l)]) with [l]. change (visited []) with (@nil nat).
  simpl app.
  split_and!; [done | by apply prefix_cons | intros Hr; by rewrite C].
Qed.

(** C10, amended.  On every finite tree, absent children allowed, both
    passes terminate.  The nodes a pass enters are an initial part of the
    depth-first pre-order of the tree, the whole of it when the pass returns:
    on a tree no node of which sits at two places, each node is entered at
    most once, and exactly once by a pass that returns.  The validator
    returns when it finds no violation, the dumper when every child of the
    tree is present. *)
Theorem C10_terminates :
  (∀ h d sg fuel w,
     heap w = h → finite h d sg = true → d ≤ fuel →
     ∃ r t,
       AssertSorted fuel sg w = (r, emit w [] t) ∧
       r ≠ Abort OutOfFuel ∧
       visited t `prefix_of` preorder h d sg ∧
       (r = Ret tt → visited t = preorder h d sg) ∧
       (unshared h d sg → ∀ l, reachable h sg l →
          visits t l ≤ 1 ∧ (r = Ret tt → visits t l = 1)) ∧
       ((∀ l n, reachable h sg l → h !! l = Some n →
           strictly_increasing (sourceIds n) ∧ strictly_increasing (destIds n)) →
        r = Ret tt)) ∧
  (∀ fmt_q fmt_v_List h d sg indent fuel w,
     heap w = h → finite h d sg = true → d ≤ fuel →
     ∃ r o t,
       DebugSubgraph fmt_q fmt_v_List fuel sg indent w = (r, emit w o t) ∧
       r ≠ Abort OutOfFuel ∧
       visited t `prefix_of` preorder h d sg ∧
       (r = Ret tt → visited t = preorder h d sg) ∧
       (unshared h d sg → ∀ l, reachable h sg l →
          visits t l ≤ 1 ∧ (r = Ret tt → visits t l = 1)) ∧
       (complete h d sg = true → r = Ret tt)).
Proof.
  split.
  - intros h d sg fuel w <- Hf Hd.
    destruct (AssertSorted_run fuel d sg w Hf Hd) as (t & E & P & C).
    exists (verdict (tree_violation (heap w) d sg)), t.
    assert (Hret : verdict (tree_violation (heap w) d sg) = Ret tt →
                   visited t = preorder (heap w) d sg).
    { intros Hr. apply C. by destruct (tree_violation (heap w) d sg). }
    split_and!; [done | | done | done | |].
    + by destruct (tree_violation (heap w) d sg).
    + intros Hnd l Hl. split.
      * by eapply visits_at_most_once.
      * intros Hr. eapply visits_once; [exact Hnd | by apply Hret |].
        by apply reachable_preorder.
    + intros Hall.
      destruct (tree_violation (heap w) d sg) as [m|] eqn:Ev; [|done].
      apply tree_violation_some in Ev as (l & n & Hr & Hn & Hv).
      assert (∃ m, node_violation n = Some m) as Hm by (by exists m).
      apply node_violation_violating in Hm.
      destruct (Hall l n Hr Hn) as [Hs Hdst].
      destruct Hm as [Hm | Hm]; apply violating_not_increasing in Hm; done.
  - intros fmt_q fmt_v_List h d sg indent fuel w <- Hf Hd.
    destruct (DebugSubgraph_visited fmt_q fmt_v_List fuel d sg indent w Hf Hd)
      as (r & o & t & E & T & P & C).
    exists r, o, t. split_and!; [done | done | done | done | |].
    + intros Hnd l Hl. split.
      * by eapply visits_at_most_once.
      * intros Hr. eapply visits_once; [exact Hnd | by apply C |].
        by apply reachable_preorder.
    + intros Hc. rewrite (DebugSubgraph_run _ _ fuel d) in E by done.
      by injection E as <- _.
Qed.

Lemma half_heap_finite : finite half_heap 2 (Some 0) = true.
Proof. reflexivity. Qed.

(** The validator on the forum tree, and the dumper on a tree whose root has
    a present child followed by an absent one. *)
Lemma C10_witness :
  (∃ r t,
     AssertSorted 2 (Some 0) (start forum_heap) = (r, emit (start forum_heap) [] t) ∧
     r ≠ Abort OutOfFuel ∧
     visited t `prefix_of` preorder forum_heap 2 (Some 0) ∧
     (r = Ret tt → visited t = preorder forum_heap 2 (Some 0)) ∧
     (unshared forum_heap 2 (Some 0) → ∀ l, reachable forum_heap (Some 0) l →
        visits t l ≤ 1 ∧ (r = Ret tt → visits t l = 1)) ∧
     ((∀ l n, reachable forum_heap (Some 0) l → forum_heap !! l = Some n →
         strictly_increasing (sourceIds n) ∧ strictly_increasing (destIds n)) →
      r = Ret tt)) ∧
  (∃ r o t,
     DebugSubgraph quote_ascii List_String 2 (Some 0) EmptyString (start half_heap) =
       (r, emit (start half_heap) o t) ∧
     r ≠ Abort OutOfFuel ∧
     visited t `prefix_of` preorder half_heap 2 (Some 0) ∧
     (r = Ret tt → visited t = preorder half_heap 2 (Some 0)) ∧
     (unshared half_heap 2 (Some 0) → ∀ l, reachable half_heap (Some 0) l →
        visits t l ≤ 1 ∧ (r = Ret tt → visits t l = 1)) ∧
     (complete half_heap 2 (Some 0) = true → r = Ret tt)).
Proof.
  destruct C10_terminates as [Hval Hdump]. split.
  - apply (Hval forum_heap 2 (Some 0) 2 (start forum_heap)).
    + reflexivity.
    + exact forum_heap_finite.
    + lia.
  - apply (Hdump quote_ascii List_String half_heap 2 (Some 0) EmptyString 2
             (start half_heap)).
    + reflexivity.
    + exact half_heap_finite.
    + lia.
Defined.

(** * Further properties of the code *)

(** ** What a run depends on *)


Lemma for_each_app {A} (xs ys : list A) body w :
  for_each (xs ++ ys) body w = (for_each xs body;; for_each ys body) w.
Proof.
  revert w. induction xs as [|x xs IH]; intros w.
  - by rewrite for_each_nil.
  - change ((x :: xs) ++ ys) with (x :: (xs ++ ys)).
    rewrite !for_each_cons, !bind_run.
    destruct (body x w) as [[[]|r] w1]; [|done].
    by rewrite IH, bind_run.
Qed.



(** ** Which failure the validator reports *)



(** ** The validator is silent *)

Lemma quiet_ret {A} (a : A) : quiet (mret a).
Proof. intros h. exists (Ret a), []. intros. by rewrite ret_run, app_nil_r. Qed.

Lemma quiet_stop {A} r : quiet (@stop A r).
Proof. intros h. exists (Abort r), []. intros. unfold stop. by rewrite app_nil_r. Qed.

Lemma quiet_bind {A B} (m : M A) (f : A → M B) :
  quiet m → (∀ a, quiet (f a)) → quiet (m ≫= f).
Proof.
  intros Qm Qf h. destruct (Qm h) as (r & t & E). destruct r as [a|r].
  - destruct (Qf a h) as (r' & t' & E'). exists r', (t ++ t'). intros out tr.
    by rewrite (bind_ret _ _ _ _ _ (E out tr)), E', app_assoc.
  - exists (Abort r), t. intros out tr.
    by rewrite (bind_abort _ _ _ _ _ (E out tr)).
Qed.

Lemma quiet_load p : quiet (load p).
Proof.
  intros h. destruct p as [l|]; [destruct (h !! l) as [n|] eqn:E|].
  - exists (Ret n), []. intros. unfold load. simpl. by rewrite E, app_nil_r.
  - exists (Abort (Panic NilDereference)), []. intros. unfold load. simpl.
    by rewrite E, app_nil_r.
  - exists (Abort (Panic NilDereference)), []. intros. unfold load.
    by rewrite app_nil_r.
Qed.

Lemma quiet_tick e : quiet (tick e).
Proof. intros h. by exists (Ret tt), [e]. Qed.

Lemma quiet_for_each {A} (xs : list A) body :
  (∀ x, quiet (body x)) → quiet (for_each xs body).
Proof.
  intros Qb. induction xs as [|x xs IH].
  - rewrite for_each_nil. apply quiet_ret.
  - rewrite for_each_cons. apply quiet_bind; [apply Qb | intros _; apply IH].
Qed.

Lemma quiet_AssertUidListSorted pl msg : quiet (AssertUidListSorted pl msg).
Proof.
  intros h. eexists _, _. intros out tr. rewrite AssertUidListSorted_run.
  unfold emit. simpl. by rewrite app_nil_r.
Qed.

Lemma quiet_AssertSorted fuel sg : quiet (AssertSorted fuel sg).
Proof.
  revert sg. induction fuel as [|fuel IH]; intros sg; [apply quiet_stop|].
  rewrite AssertSorted_S. apply quiet_bind; [apply quiet_tick | intros _].
  destruct sg as [l|]; [|apply quiet_ret].
  repeat (apply quiet_bind;
          [first [apply quiet_AssertUidListSorted | apply quiet_load] | intros ?]).
  apply quiet_for_each. intros c. apply IH.
Qed.

Lemma quiet_run {A} (m : M A) w :
  quiet m → ∃ r t, m w = (r, emit w [] t).
Proof.
  intros Q. destruct (Q (heap w)) as (r & t & E). exists r, t.
  rewrite <- (world_eta w) at 1. rewrite E. unfold emit. by rewrite app_nil_r.
Qed.

(** X2.  The validator writes nothing to standard output, however it stops;
    and a dump made after a validation that returned writes the lines, and
    stops the way, of a dump made without it. *)
Theorem validate_then_dump :
  (∀ fuel sg w, stdout (AssertSorted fuel sg w).2 = stdout w) ∧
  (∀ fmt_q fmt_v_List fuel sg fuel' sg' indent w w1,
     AssertSorted fuel sg w = (Ret tt, w1) →
     ∃ r o t,
       DebugSubgraph fmt_q fmt_v_List fuel' sg' indent w = (r, emit w o t) ∧
       DebugSubgraph fmt_q fmt_v_List fuel' sg' indent w1 = (r, emit w1 o t) ∧
       stdout (emit w1 o t) = stdout w ++ o).
Proof.
  split.
  - intros fuel sg w.
    destruct (quiet_run _ w (quiet_AssertSorted fuel sg)) as (r1 & t1 & E1).
    rewrite E1. unfold emit. simpl. by rewrite app_nil_r.
  - intros fmt_q fmt_v_List fuel sg fuel' sg' indent w w1 H.
    destruct (quiet_run _ w (quiet_AssertSorted fuel sg)) as (r1 & t1 & E1).
    rewrite E1 in H. injection H as _ <-.
    destruct (local_DebugSubgraph fmt_q fmt_v_List fuel' sg' indent (heap w))
      as (r & o & t & E).
    exists r, o, t. split_and!.
    + rewrite <- (world_eta w) at 1. apply E.
    + apply E.
    + unfold emit. simpl. by rewrite app_nil_r.
Qed.

Lemma validate_then_dump_witness :
  ∃ r o t,
    DebugSubgraph quote_ascii List_String 2 (Some 0) EmptyString (start forum_heap) =
      (r, emit (start forum_heap) o t) ∧
    DebugSubgraph quote_ascii List_String 2 (Some 0) EmptyString
      (AssertSorted 2 (Some 0) (start forum_heap)).2 =
      (r, emit (AssertSorted 2 (Some 0) (start forum_heap)).2 o t) ∧
    stdout (emit (AssertSorted 2 (Some 0) (start forum_heap)).2 o t) =
      stdout (start forum_heap) ++ o.
Proof.
  apply (proj2 validate_then_dump quote_ascii List_String 2 (Some 0) 2 (Some 0)
           EmptyString (start forum_heap)).
  reflexivity.
Defined.

(** ** The dumper on a tree with an absent child *)

Section DumperPrefix.

Variable fmt_q : string → string.
Variable fmt_v_List : option List → string.

Lemma DebugSubgraph_children_prefix fuel d l n indent cs pre rest w :
  heap w !! l = Some n →
  Children n = pre ++ cs ++ rest →
  Forall (λ c, complete (heap w) d c = true) cs → d ≤ fuel →
  for_each (seq (length pre) (length cs)) (λ i,
     Printf (indent +:+ "  Child=" +:+ fmt_d i +:+ nl);;
     n ← load (Some l); ch ← index (Children n) i;
     DebugSubgraph fmt_q fmt_v_List fuel ch (indent +:+ "    ")) w =
  (Ret tt, emit w (child_lines fmt_q fmt_v_List (heap w) d indent (length pre) cs)
             (Call ∘ Some <$> concat (preorder (heap w) d <$> cs))).
Proof.
  revert pre w. induction cs as [|c cs IHcs]; intros pre w Hn Hch Hf Hd.
  - simpl. by rewrite ret_run, emit_nil.
  - apply Forall_cons in Hf as [Hc Hcs].
    assert (Children n !! length pre = Some c) as Hi.
    { rewrite Hch. by apply list_lookup_middle. }
    simpl length. simpl seq. rewrite for_each_cons.
    erewrite bind_ret; cycle 1.
    { do 3 run_ret. by apply DebugSubgraph_run. }
    replace (S (length pre)) with (length (pre ++ [c]))
      by (rewrite length_app; simpl; lia).
    rewrite (IHcs (pre ++ [c])); [| done | by rewrite <- app_assoc | done | done].
    rewrite !emit_emit, child_lines_cons. simpl.
    rewrite fmap_app.
    replace (length (pre ++ [c])) with (S (length pre))
      by (rewrite length_app; simpl; lia).
    done.
Qed.

End DumperPrefix.

(** X3.  At a node one of whose children is absent, the children before it
    being result trees, the dumper writes the two lines of the node, the
    blocks of the children before the absent one and the [Child=] line of
    the absent one, then stops on a nil pointer dereference: the children
    after it are never written. *)
Theorem dump_stops_at_absent_child
    fmt_q fmt_v_List h d l n cs1 cs2 indent fuel w :
  heap w = h → h !! l = Some n →
  Children n = cs1 ++ None :: cs2 →
  Forall (λ c, complete h d c = true) cs1 → d ≤ S fuel →
  ∃ t,
    DebugSubgraph fmt_q fmt_v_List (S (S fuel)) (Some l) indent w =
    (Abort (Panic NilDereference),
     emit w
       ((indent +:+ "Attr=" +:+ fmt_q (Attr n) +:+ nl) ::
        (indent +:+ "  SrcUids=" +:+ fmt_v_List (SrcUIDs n) +:+ nl) ::
        child_lines fmt_q fmt_v_List h d indent 0 cs1 ++
        [indent +:+ "  Child=" +:+ fmt_d (length cs1) +:+ nl])
       t).
Proof.
  intros <- Hn Hch Hf Hd. eexists.
  rewrite DebugSubgraph_S. do 5 run_ret.
  erewrite bind_ret by (apply load_some; exact Hn).
  rewrite Hch, length_app. simpl length.
  rewrite seq_app, for_each_app. simpl "+".
  erewrite bind_ret; cycle 1.
  { apply (DebugSubgraph_children_prefix fmt_q fmt_v_List (S fuel) d l n indent
             cs1 [] (None :: cs2)); done. }
  simpl seq. rewrite for_each_cons.
  erewrite bind_abort; cycle 1.
  { do 2 run_ret. erewrite bind_ret; cycle 1.
    { apply index_some. rewrite Hch. by apply list_lookup_middle. }
    rewrite DebugSubgraph_S. run_ret. by apply bind_abort. }
  rewrite !emit_emit. simpl. reflexivity.
Qed.

Lemma dump_stops_at_absent_child_witness :
  ∃ t,
    DebugSubgraph quote_ascii List_String 3 (Some 0) EmptyString (start gap_heap) =
    (Abort (Panic NilDereference),
     emit (start gap_heap)
       ((EmptyString +:+ "Attr=" +:+ quote_ascii (Attr gap_root) +:+ nl) ::
        (EmptyString +:+ "  SrcUids=" +:+ List_String (SrcUIDs gap_root) +:+ nl) ::
        child_lines quote_ascii List_String gap_heap 1 EmptyString 0 [Some 1] ++
        [EmptyString +:+ "  Child=" +:+ fmt_d (length [Some 1]) +:+ nl])
       t).
Proof.
  apply (dump_stops_at_absent_child quote_ascii List_String gap_heap 1 0 gap_root
           [Some 1] [Some 1] EmptyString 1 (start gap_heap)).
  - reflexivity.
  - reflexivity.
  - reflexivity.
  - constructor; [reflexivity | constructor].
  - lia.
Defined.

(** ** How the passes can stop *)

Lemma load_abort p w r w' :
  load p w = (Abort r, w') → r = Panic NilDereference ∧ w' = w.
Proof.
  unfold load. destruct p as [l|]; [destruct (heap w !! l)|];
    intros [= <- <-]; by split.
Qed.

Lemma load_ret p w n w' :
  load p w = (Ret n, w') → w' = w ∧ ∃ l, p = Some l ∧ heap w !! l = Some n.
Proof.
  unfold load. destruct p as [l|]; [destruct (heap w !! l) eqn:E|];
    intros [= <- <-]. split; [done|]. by exists l.
Qed.

(** X4.  In a store without dangling pointers the validator never stops on
    a run-time panic, whatever the shape of the structure (shared or cyclic):
    nil sub-graphs and nil lists are never dereferenced and no index leaves
    its list. *)
Theorem validator_never_panics h fuel sg w f :
  closed h → heap w = h → (∀ l, sg = Some l → is_Some (h !! l)) →
  (AssertSorted fuel sg w).1 ≠ Abort (Panic f).
Proof.
  intros Hcl. revert sg w.
  induction fuel as [|fuel IH]; intros sg w Hw Hsg; [done|].
  rewrite AssertSorted_S. run_ret. destruct sg as [l|]; [|done].
  destruct (Hsg l eq_refl) as [n Hn]. rewrite <- Hw in Hn.
  run_ret. rewrite bind_run, AssertUidListSorted_run.
  destruct (sortedb (GetUids (SrcUIDs n))); [|done].
  run_ret. rewrite bind_run, AssertUidListSorted_run.
  destruct (sortedb (GetUids (DestUIDs n))); [|done].
  run_ret.
  lazymatch goal with
  | |- (for_each ?cs ?b ?w').1 ≠ _ => destruct (for_each cs b w') as [r w2] eqn:E
  end.
  simpl. intros ->.
  apply for_each_abort in E as (c & w1 & w1' & Hc & Hh & E);
    [| intros; apply local_AssertSorted].
  simpl in Hh. apply (IH c w1).
  - by rewrite Hh.
  - intros l' ->. rewrite Hw in Hn. by eapply Hcl.
  - by rewrite E.
Qed.

Lemma loop_heap_closed : closed loop_heap.
Proof.
  intros l n c Hn Hc. unfold loop_heap in *.
  destruct (decide (l = 0)) as [->|Hl0].
  - rewrite lookup_insert_eq in Hn. injection Hn as <-. simpl in Hc.
    apply elem_of_cons in Hc as [[= ->] | Hc]; [by eexists|].
    apply list_elem_of_singleton in Hc as [= ->]. by eexists.
  - rewrite lookup_insert_ne in Hn by done.
    destruct (decide (l = 1)) as [->|Hl1].
    + rewrite lookup_insert_eq in Hn. injection Hn as <-.
      by apply elem_of_nil in Hc.
    + rewrite lookup_insert_ne in Hn by done. by rewrite lookup_empty in Hn.
Qed.

(** The cyclic structure [loop_heap]: no panic, at any call depth. *)
Lemma validator_never_panics_witness :
  (AssertSorted 7 (Some 0) (start loop_heap)).1 ≠ Abort (Panic NilDereference).
Proof.
  apply (validator_never_panics loop_heap 7 (Some 0) (start loop_heap)).
  - exact loop_heap_closed.
  - reflexivity.
  - intros l [= <-]. by eexists.
Defined.

Lemma DebugSubgraph_abort fmt_q fmt_v_List fuel sg indent w r w' :
  DebugSubgraph fmt_q fmt_v_List fuel sg indent w = (Abort r, w') →
  r = Panic NilDereference ∨ r = OutOfFuel.
Proof.
  revert sg indent w w'. induction fuel as [|fuel IH]; intros sg indent w w' H.
  { right. unfold DebugSubgraph, stop in H. by simplify_eq. }
  rewrite DebugSubgraph_S in H. revert H. run_ret. intros H.
  apply bind_abort_inv in H as [H | (n & w1 & Hl & H)].
  { left. by apply load_abort in H as [-> _]. }
  apply load_ret in Hl as (-> & l & -> & Hn).
  change (heap w !! l = Some n) in Hn. revert H. run_ret. do 3 run_ret.
  intros H.
  apply for_each_abort in H as (i & w1 & w1' & Hi & Hh & H); cycle 1.
  { intros j. repeat (apply local_bind; [auto with local | intros ?]).
    apply local_DebugSubgraph. }
  revert H. run_ret. intros H. simpl in Hh.
  apply bind_abort_inv in H as [H | (n' & w2 & Hl & H)].
  { left. by apply load_abort in H as [-> _]. }
  apply load_ret in Hl as (-> & l' & [= <-] & Hn').
  change (heap w1 !! l = Some n') in Hn'.
  rewrite Hh, Hn in Hn'. injection Hn' as <-.
  apply elem_of_seq in Hi as [_ Hi]. simpl in Hi.
  destruct (lookup_lt_is_Some_2 (Children n) i Hi) as [c Hc].
  revert H. erewrite bind_ret by (by apply index_some). intros H.
  by eapply IH.
Qed.

(** X5.  The dumper stops in one of three ways only: it returns, it
    dereferences a nil pointer, or its nested calls exceed the call depth.
    It never stops on an index out of range ([sg.Children[i]] is always
    within bounds) and never on a fatal assertion. *)
Theorem dump_stop_reasons fmt_q fmt_v_List fuel sg indent w :
  (DebugSubgraph fmt_q fmt_v_List fuel sg indent w).1 = Ret tt ∨
  (DebugSubgraph fmt_q fmt_v_List fuel sg indent w).1 = Abort (Panic NilDereference) ∨
  (DebugSubgraph fmt_q fmt_v_List fuel sg indent w).1 = Abort OutOfFuel.
Proof.
  destruct (DebugSubgraph fmt_q fmt_v_List fuel sg indent w) as [[[]|r] w'] eqn:E.
  - by left.
  - right. apply DebugSubgraph_abort in E as [-> | ->]; [by left | by right].
Qed.

(** ** Cycles *)

Lemma bind_abort_fst {A B} (m : M A) (f : A → M B) w r :
  (m w).1 = Abort r → ((m ≫= f) w).1 = Abort r.
Proof.
  rewrite bind_run. destruct (m w) as [[a|r'] w']; simpl; intros H.
  - discriminate.
  - by injection H as ->.
Qed.

(** X6.  Neither pass detects a cycle.  On a node that is its own first
    child the dumper exhausts every call depth, and so does the validator
    when the two lists of the node are sorted: in the program both recurse
    until the stack overflows. *)
Theorem no_cycle_detection fmt_q fmt_v_List h l n cs fuel indent w :
  heap w = h → h !! l = Some n → Children n = Some l :: cs →
  (DebugSubgraph fmt_q fmt_v_List fuel (Some l) indent w).1 = Abort OutOfFuel ∧
  (strictly_increasing (sourceIds n) → strictly_increasing (destIds n) →
   (AssertSorted fuel (Some l) w).1 = Abort OutOfFuel).
Proof.
  intros Hw Hn Hch. rewrite <- Hw in Hn. clear Hw. split.
  - revert indent w Hn. induction fuel as [|fuel IH]; intros indent w Hn; [done|].
    rewrite DebugSubgraph_S. do 5 run_ret.
    erewrite bind_ret by (apply load_some; exact Hn).
    rewrite Hch. simpl length. simpl seq. rewrite for_each_cons.
    apply bind_abort_fst. do 2 run_ret.
    erewrite bind_ret by (apply index_some; by rewrite Hch).
    by apply IH.
  - intros Hs Hd. apply sortedb_increasing in Hs, Hd.
    unfold sourceIds, destIds in *.
    revert w Hn. induction fuel as [|fuel IH]; intros w Hn; [done|].
    rewrite AssertSorted_S. do 2 run_ret.
    rewrite bind_run, AssertUidListSorted_run, Hs. run_ret.
    rewrite bind_run, AssertUidListSorted_run, Hd. run_ret.
    rewrite Hch, for_each_cons. apply bind_abort_fst. by apply IH.
Qed.

Lemma no_cycle_detection_witness :
  (DebugSubgraph quote_ascii List_String 9 (Some 0) EmptyString (start loop_heap)).1 =
    Abort OutOfFuel ∧
  (strictly_increasing (sourceIds loop_root) → strictly_increasing (destIds loop_root) →
   (AssertSorted 9 (Some 0) (start loop_heap)).1 = Abort OutOfFuel).
Proof.
  apply (no_cycle_detection quote_ascii List_String loop_heap 0 loop_root [Some 1] 9
           EmptyString (start loop_heap)).
  - reflexivity.
  - reflexivity.
  - reflexivity.
Defined.

(** ** The size of a dump *)

Section DumpSize.

Variable fmt_q : string → string.
Variable fmt_v_List : option List → string.

Lemma child_lines_length h d indent i cs :
  (∀ c ind, complete h d c = true →
     length (dump_lines fmt_q fmt_v_List h d c ind) + 1 = 3 * length (preorder h d c)) →
  Forall (λ c, complete h d c = true) cs →
  length (child_lines fmt_q fmt_v_List h d indent i cs) =
  3 * length (concat (preorder h d <$> cs)).
Proof.
  intros IH Hf. revert i. induction cs as [|c cs IHcs]; intros i; [done|].
  apply Forall_cons in Hf as [Hc Hcs].
  rewrite child_lines_cons. rewrite fmap_cons. simpl concat.
  rewrite !length_app. simpl length. rewrite length_app, IHcs by done.
  specialize (IH c (indent +:+ "    ") Hc). lia.
Qed.

Lemma dump_lines_length h d p indent :
  complete h d p = true →
  length (dump_lines fmt_q fmt_v_List h d p indent) + 1 = 3 * length (preorder h d p).
Proof.
  revert p indent. induction d as [|d IH]; intros p indent Hc; [done|].
  simpl in Hc. destruct p as [l|]; [|done].
  destruct (h !! l) as [n|] eqn:Hn; [|done].
  rewrite forallb_Forall in Hc.
  rewrite (dump_lines_node _ _ _ _ _ _ _ Hn). simpl preorder. rewrite Hn.
  simpl length.
  change (concat (imap _ (Children n)))
    with (child_lines fmt_q fmt_v_List h d indent 0 (Children n)).
  rewrite (child_lines_length h d indent 0 (Children n) IH Hc). lia.
Qed.

End DumpSize.

(** X7.  On a result tree of [N] nodes the dumper writes [3 * N - 1] lines:
    two for each node and one [Child=] line for each node but the root. *)
Theorem dump_line_count fmt_q fmt_v_List h d sg indent fuel w :
  heap w = h → complete h d sg = true → d ≤ fuel →
  ∃ o t,
    DebugSubgraph fmt_q fmt_v_List fuel sg indent w = (Ret tt, emit w o t) ∧
    visited t = preorder h d sg ∧
    length o + 1 = 3 * length (preorder h d sg).
Proof.
  intros <- Hc Hd. eexists _, _. split_and!.
  - by apply DebugSubgraph_run.
  - apply visited_calls.
  - by apply dump_lines_length.
Qed.

Lemma dump_line_count_witness :
  ∃ o t,
    DebugSubgraph quote_ascii List_String 2 (Some 0) EmptyString (start forum_heap) =
      (Ret tt, emit (start forum_heap) o t) ∧
    visited t = preorder forum_heap 2 (Some 0) ∧
    length o + 1 = 3 * length (preorder forum_heap 2 (Some 0)).
Proof.
  apply (dump_line_count quote_ascii List_String forum_heap 2 (Some 0) EmptyString 2
           (start forum_heap)).
  - reflexivity.
  - exact forum_heap_complete.
  - lia.
Defined.

(** ** The indentation prefix *)

Lemma quiet_index {A} (s : list A) i : quiet (index s i).
Proof. unfold index. destruct (s !! i); [apply quiet_ret | apply quiet_stop]. Qed.

Lemma relined_quiet {A} f (m : M A) : quiet m → relined f m m.
Proof.
  intros Q h. destruct (Q h) as (r & t & E). exists r, [], t.
  split; intros out tr; by rewrite E, ?app_nil_r.
Qed.

Lemma relined_bind {A B} f (m1 m2 : M A) (k1 k2 : A → M B) :
  relined f m1 m2 → (∀ a, relined f (k1 a) (k2 a)) →
  relined f (m1 ≫= k1) (m2 ≫= k2).
Proof.
  intros Hm Hk h. destruct (Hm h) as (r & o & t & E1 & E2). destruct r as [a|r].
  - destruct (Hk a h) as (r' & o' & t' & E1' & E2').
    exists r', (o ++ o'), (t ++ t'). split; intros out tr.
    + by rewrite (bind_ret _ _ _ _ _ (E1 out tr)), E1', !app_assoc.
    + by rewrite (bind_ret _ _ _ _ _ (E2 out tr)), E2', fmap_app, !app_assoc.
  - exists (Abort r), o, t. split; intros out tr.
    + by rewrite (bind_abort _ _ _ _ _ (E1 out tr)).
    + by rewrite (bind_abort _ _ _ _ _ (E2 out tr)).
Qed.

Lemma relined_Printf f s : relined f (Printf s) (Printf (f s)).
Proof.
  intros h. exists (Ret tt), [s], []. split; intros out tr; unfold Printf; simpl;
    by rewrite app_nil_r.
Qed.

Lemma relined_for_each {A} f (xs : list A) b1 b2 :
  (∀ x, relined f (b1 x) (b2 x)) → relined f (for_each xs b1) (for_each xs b2).
Proof.
  intros Hb. induction xs as [|x xs IH].
  - rewrite !for_each_nil. apply relined_quiet, quiet_ret.
  - rewrite !for_each_cons. apply relined_bind; [apply Hb | intros _; apply IH].
Qed.

Lemma DebugSubgraph_relined fmt_q fmt_v_List fuel sg pre indent :
  relined (String.append pre)
    (DebugSubgraph fmt_q fmt_v_List fuel sg indent)
    (DebugSubgraph fmt_q fmt_v_List fuel sg (pre +:+ indent)).
Proof.
  revert sg indent. induction fuel as [|fuel IH]; intros sg indent.
  { apply relined_quiet, quiet_stop. }
  rewrite !DebugSubgraph_S.
  apply relined_bind; [apply relined_quiet, quiet_tick | intros _].
  apply relined_bind; [apply relined_quiet, quiet_load | intros n].
  apply relined_bind; [rewrite string_app_assoc; apply relined_Printf | intros _].
  apply relined_bind; [apply relined_quiet, quiet_load | intros n'].
  apply relined_bind; [rewrite string_app_assoc; apply relined_Printf | intros _].
  apply relined_bind; [apply relined_quiet, quiet_load | intros n''].
  apply relined_for_each. intros i.
  apply relined_bind; [rewrite string_app_assoc; apply relined_Printf | intros _].
  apply relined_bind; [apply relined_quiet, quiet_load | intros n3].
  apply relined_bind; [apply relined_quiet, quiet_index | intros ch].
  rewrite string_app_assoc. apply IH.
Qed.

(** X8.  The indentation is a pure prefix: with the prefix [pre +:+ indent]
    the dumper stops the way it does with [indent] and writes the same
    lines, each with [pre] in front, on every input.  So every line the
    dumper writes starts with the prefix it was called with. *)
Theorem dump_indent_is_prefix :
  (∀ fmt_q fmt_v_List fuel sg pre indent w,
     ∃ r o t,
       DebugSubgraph fmt_q fmt_v_List fuel sg indent w = (r, emit w o t) ∧
       DebugSubgraph fmt_q fmt_v_List fuel sg (pre +:+ indent) w =
         (r, emit w (String.append pre <$> o) t)) ∧
  (∀ fmt_q fmt_v_List fuel sg indent w,
     ∃ r o t,
       DebugSubgraph fmt_q fmt_v_List fuel sg indent w = (r, emit w o t) ∧
       Forall (λ line, ∃ rest, line = indent +:+ rest) o).
Proof.
  assert (Hshift : ∀ fmt_q fmt_v_List fuel sg pre indent w,
     ∃ r o t,
       DebugSubgraph fmt_q fmt_v_List fuel sg indent w = (r, emit w o t) ∧
       DebugSubgraph fmt_q fmt_v_List fuel sg (pre +:+ indent) w =
         (r, emit w (String.append pre <$> o) t)).
  { intros fmt_q fmt_v_List fuel sg pre indent w.
    destruct (DebugSubgraph_relined fmt_q fmt_v_List fuel sg pre indent (heap w))
      as (r & o & t & E1 & E2).
    exists r, o, t. split.
    - rewrite <- (world_eta w) at 1. apply E1.
    - rewrite <- (world_eta w) at 1. apply E2. }
  split; [exact Hshift|].
  intros fmt_q fmt_v_List fuel sg indent w.
  destruct (Hshift fmt_q fmt_v_List fuel sg indent EmptyString w)
    as (r & o & t & _ & E).
  rewrite string_app_nil_r in E.
  exists r, (String.append indent <$> o), t. split; [done|].
  apply Forall_fmap, Forall_forall. intros line _. by exists line.
Qed.

(** ** What a validated tree guarantees *)

Lemma increasing_global (l : list N) :
  strictly_increasing l →
  ∀ i j a b, i < j → l !! i = Some a → l !! j = Some b → (a < b)%N.
Proof.
  intros Hinc i j. revert i. induction j as [|j IH]; intros i a b Hij Ha Hb; [lia|].
  destruct (decide (i = j)) as [->|Hne]; [by eapply Hinc|].
  destruct (lookup_lt_is_Some_2 l j) as [c Hc].
  { apply lookup_lt_Some in Hb. lia. }
  assert (a < c)%N by (eapply (IH i); [lia | done | done]).
  assert (c < b)%N by (by eapply Hinc).
  lia.
Qed.

Lemma increasing_NoDup (l : list N) : strictly_increasing l → NoDup l.
Proof.
  intros Hinc. apply NoDup_alt. intros i j x Hi Hj.
  destruct (Nat.lt_trichotomy i j) as [Hlt | [-> | Hlt]]; [| done |].
  - pose proof (increasing_global l Hinc i j x x Hlt Hi Hj). lia.
  - pose proof (increasing_global l Hinc j i x x Hlt Hj Hi). lia.
Qed.

(** X9.  A validation that returns on a finite tree guarantees what the
    merge algorithms rely on: at every node, in sourceIds and in destIds,
    any earlier identifier is smaller than any later one (not only the next
    one), and no identifier occurs twice. *)
Theorem validated_lists_are_sets h d sg fuel w :
  heap w = h → finite h d sg = true → d ≤ fuel →
  (AssertSorted fuel sg w).1 = Ret tt →
  ∀ l n, reachable h sg l → h !! l = Some n →
    (∀ i j a b, i < j → sourceIds n !! i = Some a → sourceIds n !! j = Some b →
       (a < b)%N) ∧
    NoDup (sourceIds n) ∧
    (∀ i j a b, i < j → destIds n !! i = Some a → destIds n !! j = Some b →
       (a < b)%N) ∧
    NoDup (destIds n).
Proof.
  intros <- Hf Hd Hret l n Hr Hn.
  rewrite (AssertSorted_outcome fuel d) in Hret by done.
  destruct (tree_violation (heap w) d sg) as [m|] eqn:E; [done|].
  pose proof (tree_violation_none _ _ _ Hf E l n Hr Hn) as Hv.
  apply node_violation_none in Hv as [Hs Hdst].
  split_and!;
    [by apply increasing_global | by apply increasing_NoDup
    | by apply increasing_global | by apply increasing_NoDup].
Qed.

(** The thread of the forum tree, after the validation of the tree. *)
Lemma validated_lists_are_sets_witness :
  (∀ i j a b, i < j → sourceIds thread !! i = Some a → sourceIds thread !! j = Some b →
     (a < b)%N) ∧
  NoDup (sourceIds thread) ∧
  (∀ i j a b, i < j → destIds thread !! i = Some a → destIds thread !! j = Some b →
     (a < b)%N) ∧
  NoDup (destIds thread).
Proof.
  apply (validated_lists_are_sets forum_heap 2 (Some 0) 2 (start forum_heap)
           eq_refl forum_heap_finite (le_n 2) eq_refl 1 thread).
  - exists 1. exact forum_descends_thread.
  - reflexivity.
Defined.

(** ** The comparisons of a check *)

Lemma first_violation_from_ge k l i : first_violation_from k l = Some i → k ≤ i.
Proof. intros H. by apply first_violation_from_spec in H as (? & _). Qed.

Lemma comparisons_compared k (l : list N) :
  comparisons (compared l) =
  take (match first_violation_from k l with
        | Some i => S (i - k)
        | None => length l - 1
        end) (adjacent l).
Proof.
  revert k. induction l as [|a [|b r] IH]; intros k; [done | done |].
  change (compared (a :: b :: r))
    with (Less a b :: (if (a <? b)%N then compared (b :: r) else [])).
  change (first_violation_from k (a :: b :: r))
    with (if (a <? b)%N then first_violation_from (S k) (b :: r) else Some k).
  change (adjacent (a :: b :: r)) with ((a, b) :: adjacent (b :: r)).
  change (comparisons (Less a b :: ?t)) with ((a, b) :: comparisons t).
  destruct (a <? b)%N.
  - rewrite (IH (S k)).
    destruct (first_violation_from (S k) (b :: r)) as [i|] eqn:E.
    + apply first_violation_from_ge in E.
      replace (S (i - k)) with (S (S (i - S k))) by lia. done.
    + simpl length. by rewrite !Nat.sub_succ, !Nat.sub_0_r.
  - by rewrite Nat.sub_diag.
Qed.

(** X10.  The check of a list compares adjacent pairs only, from the left,
    and stops at the first pair that is not increasing: it performs
    [len - 1] comparisons on a sorted list and [i + 1] when the first
    violating pair is at index [i]. *)
Theorem check_compares_adjacent pl tag w :
  comparisons (trace (AssertUidListSorted pl tag w).2) =
    comparisons (trace w) ++
    take (comparisons_needed (GetUids pl)) (adjacent (GetUids pl)) ∧
  comparisons_needed (GetUids pl) ≤ length (GetUids pl) - 1 ∧
  (first_violation (GetUids pl) = None ↔
   (AssertUidListSorted pl tag w).1 = Ret tt).
Proof.
  rewrite AssertUidListSorted_run. unfold emit. cbn [fst snd trace]. split_and!.
  - unfold comparisons at 1 2. rewrite omap_app. f_equal.
    change (omap _ (compared (GetUids pl))) with (comparisons (compared (GetUids pl))).
    rewrite (comparisons_compared 0). unfold comparisons_needed, first_violation.
    destruct (first_violation_from 0 (GetUids pl)); [|done].
    by rewrite Nat.sub_0_r.
  - unfold comparisons_needed.
    destruct (first_violation (GetUids pl)) as [i|] eqn:E; [|done].
    apply first_violation_spec in E as ((a & b & _ & Hb & _) & _).
    apply lookup_lt_Some in Hb. lia.
  - rewrite first_violation_sorted. by destruct (sortedb (GetUids pl)).
Qed.

(** ** The validator and the labels *)

Lemma sim_AssertUidListSorted h1 h2 pl msg :
  sim eq h1 h2 (AssertUidListSorted pl msg) (AssertUidListSorted pl msg).
Proof.
  eexists _, _, [], _. split_and!.
  - intros out tr. rewrite AssertUidListSorted_run. unfold emit. simpl. reflexivity.
  - intros out tr. rewrite AssertUidListSorted_run. unfold emit. simpl. reflexivity.
  - by destruct (sortedb (GetUids pl)).
Qed.

Lemma AssertSorted_sim h1 h2 fuel sg :
  (∀ l, but_attr <$> h1 !! l = but_attr <$> h2 !! l) →
  sim eq h1 h2 (AssertSorted fuel sg) (AssertSorted fuel sg).
Proof.
  intros H. revert sg. induction fuel as [|fuel IH]; intros sg.
  { apply sim_stop. }
  rewrite AssertSorted_S. eapply sim_bind; [apply sim_tick | intros _ _ _].
  destruct sg as [l|]; [| by apply sim_ret].
  pose proof (H l) as Hl.
  destruct (h1 !! l) as [n1|] eqn:E1, (h2 !! l) as [n2|] eqn:E2; simpl in Hl;
    try done; [| by apply sim_load_fail].
  injection Hl as Hsrc Hdst Hch.
  eapply sim_bind; [by apply sim_load | intros ? ? [-> ->]].
  rewrite Hsrc. eapply sim_bind; [apply sim_AssertUidListSorted | intros _ _ _].
  eapply sim_bind; [by apply sim_load | intros ? ? [-> ->]].
  rewrite Hdst. eapply sim_bind; [apply sim_AssertUidListSorted | intros _ _ _].
  eapply sim_bind; [by apply sim_load | intros ? ? [-> ->]].
  rewrite Hch. apply sim_for_each. intros c _. apply IH.
Qed.

(** X11.  The validator does not look at labels: from two stores that are
    identical except in the [Attr] of their nodes it stops the same way, with
    the same message when it fails, after the same comparisons.  A failure
    message therefore never tells which node it is about. *)
Theorem validate_ignores_labels h1 h2 fuel sg w1 w2 :
  (∀ l, but_attr <$> h1 !! l = but_attr <$> h2 !! l) →
  heap w1 = h1 → heap w2 = h2 →
  ∃ r o t,
    AssertSorted fuel sg w1 = (r, emit w1 o t) ∧
    AssertSorted fuel sg w2 = (r, emit w2 o t).
Proof.
  intros Hsame Hw1 Hw2. apply (sim_worlds h1 h2); [| done | done].
  by apply AssertSorted_sim.
Qed.

Lemma forum_renamed_same : ∀ l, but_attr <$> forum_heap !! l = but_attr <$> forum_renamed !! l.
Proof.
  intros l. unfold forum_heap, forum_renamed.
  destruct (decide (l = 0)) as [->|]; [reflexivity|].
  rewrite !lookup_insert_ne by done.
  destruct (decide (l = 1)) as [->|]; [reflexivity|].
  by rewrite !lookup_insert_ne.
Qed.

Lemma validate_ignores_labels_witness :
  ∃ r o t,
    AssertSorted 2 (Some 0) (start forum_heap) = (r, emit (start forum_heap) o t) ∧
    AssertSorted 2 (Some 0) (start forum_renamed) = (r, emit (start forum_renamed) o t).
Proof.
  apply (validate_ignores_labels forum_heap forum_renamed).
  - exact forum_renamed_same.
  - reflexivity.
  - reflexivity.
Defined.
